(** * KP2DSonar: the sonar repeatability metric

    A shallow embedding of
    [kp2dsonar/evaluation/detector_evaluation_sonar.py] and the properties
    its description states about it.

    Conventions.
    - A Python float is a real number ([R]); a Python int is a [Z]; array
      lengths are [nat].  Division by zero, which in floating point gives
      [inf] or [nan], is never relied on: every statement that divides
      carries the hypothesis that excludes it.
    - A two-dimensional numpy array is an [ndarray]: its number of columns
      and its rows.  An operation that raises in numpy ([IndexError],
      [ValueError]) returns [None].
    - [numpy.argsort] is an interface ([ArgSort]): every function that
      returns a permutation of the positions putting the keys in ascending
      order.  numpy's default kind is not a stable sort, so nothing more is
      assumed; a stable insertion sort is given as an instance. *)

From Stdlib Require Import Reals List ZArith Lia Lra Bool Arith.
From Stdlib Require Import Permutation Sorted.
From Stdlib Require Ascii.
Import ListNotations.

Open Scope R_scope.

(** ** Options as the error monad *)

Definition bind {A B : Type} (m : option A) (f : A -> option B) : option B :=
  match m with
  | Some x => f x
  | None => None
  end.

Notation "x <- m ;; k" := (bind m (fun x => k))
  (at level 61, m at next level, right associativity).

(** ** Comparisons of floats *)

Definition Rleb (x y : R) : bool := if Rle_dec x y then true else false.
Definition Rltb (x y : R) : bool := if Rlt_dec x y then true else false.
Definition Rgeb (x y : R) : bool := Rleb y x.

(** Decides every comparison of two closed reals that occurs in the goal. *)
Ltac rcmp :=
  repeat match goal with
    | |- context [Rle_dec ?a ?b] => destruct (Rle_dec a b); try lra
    | |- context [Rlt_dec ?a ?b] => destruct (Rlt_dec a b); try lra
    end.

Ltac rcompute :=
  repeat (cbn; unfold Rgeb, Rleb, Rltb; cbn; progress rcmp); cbn.

(** ** Two-dimensional arrays *)

Module Np.

Record ndarray : Type := mk_ndarray {
  ncols : nat;
  rows : list (list R)
}.

(** [a.shape[0]] *)
Definition nrows (a : ndarray) : nat := length (rows a).

(** Every row has [ncols] entries. *)
Definition wf (a : ndarray) : Prop :=
  Forall (fun r => length r = ncols a) (rows a).

(** [a[:, j]]: numpy raises [IndexError] when the array has no column [j],
    also when it has no row. *)
Definition col (j : nat) (a : ndarray) : option (list R) :=
  if (j <? ncols a)%nat then Some (map (fun r => nth j r 0) (rows a)) else None.

(** [a[:, :c]]: a slice never raises; it keeps what there is. *)
Definition cols_upto (c : nat) (a : ndarray) : ndarray :=
  mk_ndarray (Nat.min c (ncols a)) (map (firstn c) (rows a)).

(** [v >= c] and [v < c] on a vector, and [m1 & m2] on two masks of one
    length. *)
Definition vec_ge (v : list R) (c : R) : list bool := map (fun x => Rgeb x c) v.
Definition vec_lt (v : list R) (c : R) : list bool := map (fun x => Rltb x c) v.
Definition vec_le (v : list R) (c : R) : list bool := map (fun x => Rleb x c) v.

Fixpoint vec_and (m1 m2 : list bool) : list bool :=
  match m1, m2 with
  | b1 :: t1, b2 :: t2 => (b1 && b2) :: vec_and t1 t2
  | _, _ => []
  end.

(** The elements of [l] at the positions where [mask] holds. *)
Fixpoint select {A : Type} (mask : list bool) (l : list A) : list A :=
  match mask, l with
  | b :: m, x :: t => if b then x :: select m t else select m t
  | _, _ => []
  end.

(** [a[mask, :]]: numpy raises [IndexError] when the mask has not one entry
    per row. *)
Definition bool_index (a : ndarray) (mask : list bool) : option ndarray :=
  if (length mask =? nrows a)%nat
  then Some (mk_ndarray (ncols a) (select mask (rows a)))
  else None.

(** [a[idx, :]] for a list of positions: [IndexError] when one of them is
    not the position of a row. *)
Definition fancy_index (a : ndarray) (idx : list nat) : option ndarray :=
  if forallb (fun i => (i <? nrows a)%nat) idx
  then Some (mk_ndarray (ncols a) (map (fun i => nth i (rows a) []) idx))
  else None.

(** [l[i:]] as Python slices: a negative start counts from the end, and
    the start is clamped to the list. *)
Definition slice_from {A : Type} (i : Z) (l : list A) : list A :=
  let n := Z.of_nat (length l) in
  let start := if (i <? 0)%Z then Z.max 0 (n + i) else Z.min i n in
  skipn (Z.to_nat start) l.

(** [a[i:, :]] *)
Definition rows_from (i : Z) (a : ndarray) : ndarray :=
  mk_ndarray (ncols a) (slice_from i (rows a)).

(** Broadcasting an [(N, C)] array against a vector of length [L]: the
    number of columns of the result, or [ValueError]. *)
Definition broadcast (C L : nat) : option nat :=
  if (C =? L)%nat then Some C
  else if (L =? 1)%nat then Some C
  else if (C =? 1)%nat then Some L
  else None.

(** Entry [j] of an operand of length [len] stretched by broadcasting. *)
Definition stretched (len : nat) (l : list R) (j : nat) : R :=
  if (len =? 1)%nat then nth 0 l 0 else nth j l 0.

(** [a op v] for an array and a vector (a Python list of floats). *)
Definition arr_op (op : R -> R -> R) (a : ndarray) (v : list R) : option ndarray :=
  c <- broadcast (ncols a) (length v) ;;
  Some (mk_ndarray c
          (map (fun r => map (fun j => op (stretched (ncols a) r j)
                                          (stretched (length v) v j))
                             (seq 0 c))
               (rows a))).

(** [numpy.stack([v0, v1, v2], axis=-1)]: the rows [[v0[i], v1[i], v2[i]]];
    [ValueError] when the vectors have not one length. *)
Fixpoint zip3 (v0 v1 v2 : list R) : list (list R) :=
  match v0, v1, v2 with
  | x :: t0, y :: t1, z :: t2 => [x; y; z] :: zip3 t0 t1 t2
  | _, _, _ => []
  end.

Definition stack3 (v0 v1 v2 : list R) : option ndarray :=
  if ((length v0 =? length v1) && (length v1 =? length v2))%nat
  then Some (mk_ndarray 3 (zip3 v0 v1 v2))
  else None.

(** [a[:, :c] = u] for an array [u] of the shape of the slice: the first
    [c] entries of every row are replaced; [ValueError] when the shapes
    differ. *)
Fixpoint overwrite (c : nat) (rs us : list (list R)) : list (list R) :=
  match rs, us with
  | r :: rs', u :: us' => (u ++ skipn c r) :: overwrite c rs' us'
  | _, _ => []
  end.

Definition assign_cols_upto (c : nat) (a u : ndarray) : option ndarray :=
  if ((nrows u =? nrows a) && (ncols u =? Nat.min c (ncols a)))%nat
  then Some (mk_ndarray (ncols a) (overwrite c (rows a) (rows u)))
  else None.

(** [numpy.linalg.inv] of a 3 x 3 matrix, over the reals: the inverse by
    cofactors, and [LinAlgError] where there is none.  numpy decides on the
    pivots of a factorisation in floating point, so on matrices that are
    singular or nearly so it may answer otherwise; [select_k_best] and the
    statistics take whatever inverse is passed on. *)
Definition entry (H : list (list R)) (i j : nat) : R := nth j (nth i H []) 0.

Definition det3 (H : list (list R)) : R :=
  entry H 0 0 * (entry H 1 1 * entry H 2 2 - entry H 1 2 * entry H 2 1)
  - entry H 0 1 * (entry H 1 0 * entry H 2 2 - entry H 1 2 * entry H 2 0)
  + entry H 0 2 * (entry H 1 0 * entry H 2 1 - entry H 1 1 * entry H 2 0).

Definition linalg_inv (H : list (list R)) : option (list (list R)) :=
  let d := det3 H in
  if Req_dec_T d 0 then None
  else Some
    [[(entry H 1 1 * entry H 2 2 - entry H 1 2 * entry H 2 1) / d;
      (entry H 0 2 * entry H 2 1 - entry H 0 1 * entry H 2 2) / d;
      (entry H 0 1 * entry H 1 2 - entry H 0 2 * entry H 1 1) / d];
     [(entry H 1 2 * entry H 2 0 - entry H 1 0 * entry H 2 2) / d;
      (entry H 0 0 * entry H 2 2 - entry H 0 2 * entry H 2 0) / d;
      (entry H 0 2 * entry H 1 0 - entry H 0 0 * entry H 1 2) / d];
     [(entry H 1 0 * entry H 2 1 - entry H 1 1 * entry H 2 0) / d;
      (entry H 0 1 * entry H 2 0 - entry H 0 0 * entry H 2 1) / d;
      (entry H 0 0 * entry H 1 1 - entry H 0 1 * entry H 1 0) / d]].

End Np.

Import Np.

(** ** The source functions *)

(** [normalize_keypoints(kp, f, a) = kp / f - a] *)
Definition normalize_keypoints (kp : ndarray) (f a : list R) : option ndarray :=
  t <- arr_op Rdiv kp f ;; arr_op Rminus t a.

(** [unnormalize_keypoints(kp, f, a) = (kp + a) * f] *)
Definition unnormalize_keypoints (kp : ndarray) (f a : list R) : option ndarray :=
  t <- arr_op Rplus kp a ;; arr_op Rmult t f.

(** The mask both filters compute: column 0 in [[0, shape[0])] and column 1
    in [[0, shape[1])]. *)
Definition bounds_mask (a : ndarray) (shape : Z * Z) : option (list bool) :=
  c0 <- col 0 a ;;
  c1 <- col 1 a ;;
  Some (vec_and (vec_and (vec_and (vec_ge c0 0) (vec_lt c0 (IZR (fst shape))))
                         (vec_ge c1 0))
                (vec_lt c1 (IZR (snd shape)))).

(** [filter_keypoints(points, shape)] *)
Definition filter_keypoints (points : ndarray) (shape : Z * Z) : option ndarray :=
  mask <- bounds_mask points shape ;;
  bool_index points mask.

(** [keep_true_keypoints(points, ckw, shape)] *)
Definition keep_true_keypoints (points ckw : ndarray) (shape : Z * Z)
  : option ndarray :=
  mask <- bounds_mask ckw shape ;;
  bool_index points mask.

(** The region of an image of shape [(height, width)]: what the description
    calls in bounds, as a proposition and as the test that decides it. *)
Definition in_bounds (r : list R) (shape : Z * Z) : Prop :=
  0 <= nth 0 r 0 < IZR (fst shape) /\ 0 <= nth 1 r 0 < IZR (snd shape).

Definition in_boundsb (r : list R) (shape : Z * Z) : bool :=
  Rgeb (nth 0 r 0) 0 && Rltb (nth 0 r 0) (IZR (fst shape))
  && Rgeb (nth 1 r 0) 0 && Rltb (nth 1 r 0) (IZR (snd shape)).

(** *** Top-k selection *)

(** [numpy.argsort] as an interface: the positions of a vector in some
    order. *)
Class ArgSort : Type := argsort : list R -> list nat.

(** What numpy promises of it: the positions are a permutation of
    [0 .. len-1], and reading the vector in that order gives ascending
    keys.  The order of equal keys is left open. *)
Class ArgSortOk (AS : ArgSort) : Prop := {
  argsort_perm : forall v, Permutation (argsort v) (seq 0 (length v));
  argsort_sorted : forall v, StronglySorted Rle (map (fun i => nth i v 0) (argsort v))
}.

(** Insertion sort on the positions, from the last to the first; [before]
    says when a key goes in front of a key already placed.  With [Rleb] a
    position goes before every later position whose key is not smaller:
    the sort is stable.  With [Rltb] equal keys come out in the reverse
    order: the sort is correct and not stable. *)
Fixpoint insert_idx (before : R -> R -> bool) (v : list R) (i : nat)
    (l : list nat) : list nat :=
  match l with
  | [] => [i]
  | j :: t => if before (nth i v 0) (nth j v 0) then i :: l
              else j :: insert_idx before v i t
  end.

Definition insertion_argsort : ArgSort :=
  fun v => fold_right (insert_idx Rleb v) [] (seq 0 (length v)).

Definition reversing_argsort : ArgSort :=
  fun v => fold_right (insert_idx Rltb v) [] (seq 0 (length v)).

(** A stable sort keeps equal keys in the order of their positions, which
    fixes the permutation: a stable [argsort] is one that returns what the
    stable insertion sort returns. *)
Definition ArgSortStable (AS : ArgSort) : Prop :=
  forall v, @argsort AS v = @argsort insertion_argsort v.

(** [select_k_best(points, k)]:
    [sorted_prob = points[points[:, 2].argsort(), :2]],
    [start = min(k, points.shape[0])], [sorted_prob[-start:, :]]. *)
Definition select_k_best {AS : ArgSort} (points : ndarray) (k : Z) : option ndarray :=
  prob <- col 2 points ;;
  ordered <- fancy_index points (argsort prob) ;;
  let sorted_prob := cols_upto 2 ordered in
  let start := Z.min k (Z.of_nat (nrows points)) in
  Some (rows_from (- start) sorted_prob).

(** The rows of [points] in the order [argsort] gives their confidences. *)
Definition ordered_rows {AS : ArgSort} (points : ndarray) : list (list R) :=
  map (fun i => nth i (rows points) [])
      (argsort (map (fun r => nth 2 r 0) (rows points))).

(** The rows [select_k_best] keeps, with their confidence: the same
    selection without [:2]. *)
Definition scored_selection {AS : ArgSort} (points : ndarray) (k : Z)
  : option ndarray :=
  prob <- col 2 points ;;
  ordered <- fancy_index points (argsort prob) ;;
  let start := Z.min k (Z.of_nat (nrows points)) in
  Some (rows_from (- start) ordered).

(** **** Top-k selection as the description words it

    Sort ascending by confidence with a stable sort, take the last
    [min(k, N)] entries, strip the confidence. *)

Definition confidence (r : list R) : R := nth 2 r 0.

Fixpoint insert_row (r : list R) (l : list (list R)) : list (list R) :=
  match l with
  | [] => [r]
  | s :: t => if Rleb (confidence r) (confidence s) then r :: l
              else s :: insert_row r t
  end.

Definition sort_by_confidence (l : list (list R)) : list (list R) :=
  fold_right insert_row [] l.

Definition lastn {A : Type} (m : nat) (l : list A) : list A :=
  skipn (length l - m) l.

Definition select_top_k (S : list (list R)) (k : nat) : list (list R) :=
  map (firstn 2) (lastn (Nat.min k (length S)) (sort_by_confidence S)).

(** *** The correspondence statistics (the end of
    [compute_repeatability_sonar], from [N1 = ...] on) *)

(** [numpy.linalg.norm(d, ord=None)] of a vector. *)
Definition l2norm (d : list R) : R :=
  sqrt (fold_right (fun x s => x * x + s) 0 d).

(** [norm = numpy.linalg.norm(twk[:, None] - wk[None, :], axis=2)]: the
    [N1 x N2] matrix of distances; the subtraction broadcasts the columns. *)
Definition norm_matrix (twk wk : ndarray) : option (list (list R)) :=
  c <- broadcast (ncols twk) (ncols wk) ;;
  Some (map (fun p =>
               map (fun q =>
                      l2norm (map (fun j => stretched (ncols twk) p j
                                            - stretched (ncols wk) q j)
                                  (seq 0 c)))
                   (rows wk))
            (rows twk)).

(** [numpy.min] of a vector: [ValueError] on an empty one. *)
Definition amin (l : list R) : option R :=
  match l with
  | [] => None
  | x :: t => Some (fold_left Rmin t x)
  end.

Fixpoint mapM {A B : Type} (f : A -> option B) (l : list A) : option (list B) :=
  match l with
  | [] => Some []
  | x :: t => y <- f x ;; ys <- mapM f t ;; Some (y :: ys)
  end.

(** [numpy.min(norm, axis=1)] and [numpy.min(norm, axis=0)] of an
    [n1 x n2] matrix: the minimum of every row, of every column;
    [ValueError] when the axis that is reduced has length 0. *)
Definition min_axis1 (n2 : nat) (m : list (list R)) : option (list R) :=
  if (n2 =? 0)%nat then None else mapM amin m.

Definition min_axis0 (n1 n2 : nat) (m : list (list R)) : option (list R) :=
  if (n1 =? 0)%nat then None
  else mapM (fun j => amin (map (fun r => nth j r 0) m)) (seq 0 n2).

(** [numpy.sum] of a mask and of a vector. *)
Definition count_true (mask : list bool) : nat := length (filter (fun b => b) mask).
Definition rsum (v : list R) : R := fold_right Rplus 0 v.

(** One direction: [correct = (mins <= distance_thresh)],
    [count = numpy.sum(correct)], [le = mins[correct].sum()]. *)
Definition matches (mins : list R) (distance_thresh : R) : nat * R :=
  let correct := vec_le mins distance_thresh in
  (count_true correct, rsum (select correct mins)).

Definition repeatability_core (true_warped_keypoints warped_keypoints : ndarray)
    (distance_thresh : R) : option (nat * nat * R * R) :=
  let N1 := nrows true_warped_keypoints in
  let N2 := nrows warped_keypoints in
  norm <- norm_matrix true_warped_keypoints warped_keypoints ;;
  d1 <- (if negb (N2 =? 0)%nat
         then min1 <- min_axis1 N2 norm ;; Some (matches min1 distance_thresh)
         else Some (0%nat, 0)) ;;
  d2 <- (if negb (N1 =? 0)%nat
         then min2 <- min_axis0 N1 N2 norm ;; Some (matches min2 distance_thresh)
         else Some (0%nat, 0)) ;;
  let '(count1, le1) := d1 in
  let '(count2, le2) := d2 in
  if (0 <? N1 + N2)%nat && (0 <? count1 + count2)%nat
  then Some (N1, N2,
             INR (count1 + count2) / INR (N1 + N2),
             (le1 + le2) / INR (count1 + count2))
  else Some (N1, N2, -1, -1).

(** **** The statistics as the description words them

    For each point of [A] its nearest neighbour in [B]; the match is correct
    when that minimum distance is at most the threshold; the correct matches
    are counted and their distances summed. *)

(** The Euclidean distance of two points of the plane. *)
Definition euclid (p q : list R) : R :=
  sqrt ((nth 0 p 0 - nth 0 q 0) * (nth 0 p 0 - nth 0 q 0)
        + (nth 1 p 0 - nth 1 q 0) * (nth 1 p 0 - nth 1 q 0)).

(** The distance from [p] to its nearest neighbour in [B]; none when [B] is
    empty. *)
Fixpoint min_dist (p : list R) (B : list (list R)) : option R :=
  match B with
  | [] => None
  | q :: B' =>
      match min_dist p B' with
      | None => Some (euclid p q)
      | Some m => Some (Rmin (euclid p q) m)
      end
  end.

Definition nearest (p : list R) (B : list (list R)) : R :=
  match min_dist p B with Some m => m | None => 0 end.

Definition is_correct (p : list R) (B : list (list R)) (thresh : R) : bool :=
  match min_dist p B with Some m => Rleb m thresh | None => false end.

Definition count_correct (A B : list (list R)) (thresh : R) : nat :=
  length (filter (fun p => is_correct p B thresh) A).

Definition loc_err_sum (A B : list (list R)) (thresh : R) : R :=
  rsum (map (fun p => nearest p B) (filter (fun p => is_correct p B thresh) A)).

(** Steps 4 and 5 of the description: the sentinel when both sets are empty
    or nothing matches, the two quotients otherwise. *)
Definition repeatability_spec (A B : list (list R)) (thresh : R) : R * R :=
  let count := (count_correct A B thresh + count_correct B A thresh)%nat in
  if ((length A + length B =? 0) || (count =? 0))%nat
  then (-1, -1)
  else (INR count / INR (length A + length B),
        (loc_err_sum A B thresh + loc_err_sum B A thresh) / INR count).

(** *** The sonar geometry

    [pol_2_cart] and [cart_2_pol] are imported from
    [kp2dsonar.datasets.noise_model], which is not among the sources. *)

(** [sonar_config]: the field of view in degrees, the nearest and the
    farthest range. *)
Record sonar_config : Type := mk_sonar_config {
  fov : R;
  r_min : R;
  r_max : R
}.

(** A valid configuration as the description has it: the only configuration
    it calls invalid is a window of ranges of zero or negative span,
    [r_max <= r_min]. *)
Definition valid_config (cfg : sonar_config) : Prop :=
  r_min cfg < r_max cfg.

(** An aperture that is open and is not a full turn. *)
Definition open_aperture (cfg : sonar_config) : Prop :=
  0 < Rabs (fov cfg) < 360.

(** The domain of the sensor: both fractions in [[0, 1]]. *)
Definition in_domain (p : R * R) : Prop :=
  0 <= fst p <= 1 /\ 0 <= snd p <= 1.

(** The range and the angle (in radians) a pair of fractions stands for:
    the range fraction runs linearly over [[r_min, r_max]], the bearing
    fraction over [[-fov/2, +fov/2]]. *)
Definition range_of (cfg : sonar_config) (range_frac : R) : R :=
  r_min cfg + range_frac * (r_max cfg - r_min cfg).

Definition angle_of (cfg : sonar_config) (bearing_frac : R) : R :=
  (bearing_frac - 1 / 2) * (fov cfg * PI / 180).

(** Modelled from the spec: [pol_2_cart] on one point, which the sources
    import and do not define.  The point [(range_frac, bearing_frac)] goes
    to [x = range * sin(angle)], [y = range * cos(angle)]. *)
Definition polar_to_cartesian (cfg : sonar_config) (p : R * R) : R * R :=
  (range_of cfg (fst p) * sin (angle_of cfg (snd p)),
   range_of cfg (fst p) * cos (angle_of cfg (snd p))).

(** The angle of the point [(x, y)] measured from the [y] axis towards the
    [x] axis, in [(-PI, PI)]: the two-argument arctangent by the half-angle
    formula. *)
Definition angle_from_y (x y : R) : R :=
  2 * atan (x / (sqrt (x * x + y * y) + y)).

(** Modelled from the spec: [cart_2_pol] on one point, which the sources
    import and do not define: the inverse mapping, the range and the angle
    of [(x, y)] put back into fractions. *)
Definition cartesian_to_polar (cfg : sonar_config) (c : R * R) : R * R :=
  ((sqrt (fst c * fst c + snd c * snd c) - r_min cfg) / (r_max cfg - r_min cfg),
   angle_from_y (fst c) (snd c) / (fov cfg * PI / 180) + 1 / 2).

(** A transform of points on a batch: it acts on the first two columns of
    every row, in order, and leaves the other columns (the confidence) as
    they are; an array of fewer than two columns has no second coordinate
    to read. *)
Definition on_points (g : R * R -> R * R) (a : ndarray) : option ndarray :=
  if (2 <=? ncols a)%nat
  then Some (mk_ndarray (ncols a)
               (map (fun r => match r with
                              | x :: y :: rest =>
                                  fst (g (x, y)) :: snd (g (x, y)) :: rest
                              | _ => r
                              end)
                    (rows a)))
  else None.

(** Modelled from the spec: [pol_2_cart] and [cart_2_pol] on a batch. *)
Definition pol_2_cart (cfg : sonar_config) (a : ndarray) : option ndarray :=
  on_points (polar_to_cartesian cfg) a.

Definition cart_2_pol (cfg : sonar_config) (a : ndarray) : option ndarray :=
  on_points (cartesian_to_polar cfg) a.

(** *** The whole of [compute_repeatability_sonar] *)

(** Modelled from the spec: [warp_keypoints] of [kp2d.utils.keypoints],
    which the sources import and do not define.  Each point [(x, y)] goes
    to the product [H (x, y, 1)] divided by its third component; the result
    has two columns. *)
Definition warp_keypoints (kp : ndarray) (H : list (list R)) : option ndarray :=
  if (2 <=? ncols kp)%nat
  then Some (mk_ndarray 2
               (map (fun r =>
                       let x := nth 0 r 0 in
                       let y := nth 1 r 0 in
                       let w := entry H 2 0 * x + entry H 2 1 * y + entry H 2 2 in
                       [(entry H 0 0 * x + entry H 0 1 * y + entry H 0 2) / w;
                        (entry H 1 0 * x + entry H 1 1 * y + entry H 1 2) / w])
                    (rows kp)))
  else None.

(** The dictionary [data]. *)
Record sample : Type := mk_sample {
  image_shape : Z * Z;
  homography : list (list R);
  prob : ndarray;
  warped_prob : ndarray;
  sonar_cfg : sonar_config
}.

(** The first two columns of [scored] taken through the sonar geometry,
    the homography [H] and back, the confidences put back as the third
    column: what the code does to [warped_prob] with [H] and to [prob] with
    the inverse of [H]. *)
Definition project (cfg : sonar_config) (f a : list R) (H : list (list R))
    (scored : ndarray) : option ndarray :=
  ckw <- normalize_keypoints (cols_upto 2 scored) f a ;;
  ckw <- pol_2_cart cfg ckw ;;
  ckw <- warp_keypoints ckw H ;;
  c0 <- col 0 ckw ;;
  c1 <- col 1 ckw ;;
  c2 <- col 2 scored ;;
  ckw <- stack3 c0 c1 c2 ;;
  ckw <- cart_2_pol cfg ckw ;;
  u <- unnormalize_keypoints (cols_upto 2 ckw) f a ;;
  assign_cols_upto 2 ckw u.

Definition compute_repeatability_sonar {AS : ArgSort} (data : sample)
    (keep_k_points : Z) (distance_thresh : R) : option (nat * nat * R * R) :=
  let H := homography data in
  let shape := image_shape data in
  let sonar_config := sonar_cfg data in
  let f := [IZR (fst shape) / 2; IZR (snd shape) / 2] in
  let a := [1; 1] in
  let warped_keypoints := warped_prob data in
  ckw <- project sonar_config f a H warped_keypoints ;;
  warped_keypoints <- keep_true_keypoints warped_keypoints ckw shape ;;
  H_inv <- linalg_inv H ;;
  true_warped_keypoints <- project sonar_config f a H_inv (prob data) ;;
  true_warped_keypoints <- filter_keypoints true_warped_keypoints shape ;;
  warped_keypoints <- select_k_best warped_keypoints keep_k_points ;;
  true_warped_keypoints <- select_k_best true_warped_keypoints keep_k_points ;;
  repeatability_core true_warped_keypoints warped_keypoints distance_thresh.

(** *** The evaluation loops ([kp2d/evaluation/evaluate.py]) *)

(** [v > c] on a vector. *)
Definition vec_gt (v : list R) (c : R) : list bool := map (fun x => Rltb c x) v.

(** The filter on the confidence threshold, for one image:
    [desc = desc[score[:, 2] > conf_threshold, :]] and then
    [score = score[score[:, 2] > conf_threshold, :]]. *)
Definition conf_filter (conf_threshold : R) (score desc : ndarray)
  : option (ndarray * ndarray) :=
  c <- col 2 score ;;
  desc' <- bool_index desc (vec_gt c conf_threshold) ;;
  c <- col 2 score ;;
  score' <- bool_index score (vec_gt c conf_threshold) ;;
  Some (score', desc').

(** [numpy.mean] of a Python list of floats; of an empty list numpy returns
    [nan], which no statement below relies on. *)
Definition np_mean (l : list R) : R := rsum l / INR (length l).

(** The two lists [repeatability] and [localization_err] after the loop of
    [evaluate_keypoint_net_sonar] over the results of
    [compute_repeatability_sonar], one per sample: every result is
    appended. *)
Definition append_sonar (acc : list R * list R) (res : nat * nat * R * R)
  : list R * list R :=
  let '(_, _, rep, loc_err) := res in
  (fst acc ++ [rep], snd acc ++ [loc_err]).

Definition collect_sonar (results : list (nat * nat * R * R)) : list R * list R :=
  fold_left append_sonar results ([], []).

(** The same two lists after the loop of [evaluate_keypoint_net]:
    [if (rep != -1) and (loc_err != -1)] the result is appended. *)
Definition Rneqb (x y : R) : bool := if Req_dec_T x y then false else true.

Definition append_valid (acc : list R * list R) (res : nat * nat * R * R)
  : list R * list R :=
  let '(_, _, rep, loc_err) := res in
  if Rneqb rep (-1) && Rneqb loc_err (-1)
  then (fst acc ++ [rep], snd acc ++ [loc_err])
  else acc.

Definition collect_valid (results : list (nat * nat * R * R)) : list R * list R :=
  fold_left append_valid results ([], []).

(** The repeatability and the localization error of one result. *)
Definition result_rep (res : nat * nat * R * R) : R := snd (fst res).
Definition result_loc_err (res : nat * nat * R * R) : R := snd res.

(** *** The evaluation script ([scripts/eval_keypoint_net_sonar.py]) *)

(** [s.split(sep)] for a separator of one character: the pieces between
    the occurrences of [sep], at least one piece. *)
Fixpoint split_on (sep : Ascii.ascii) (s : list Ascii.ascii)
  : list (list Ascii.ascii) :=
  match s with
  | [] => [[]]
  | c :: rest =>
      if Ascii.eqb c sep then [] :: split_on sep rest
      else match split_on sep rest with
           | piece :: pieces => (c :: piece) :: pieces
           | [] => [[c]]
           end
  end.

(** The backslash, character 92. *)
Definition backslash : Ascii.ascii := Ascii.ascii_of_nat 92.

(** [model_name = model_path.split('\\')[-1]]: the key under which the
    results of a checkpoint are stored. *)
Definition model_name (model_path : list Ascii.ascii) : list Ascii.ascii :=
  last (split_on backslash model_path) [].

(** * Properties *)

(** ** Comparisons *)

Lemma Rleb_true (x y : R) : Rleb x y = true <-> x <= y.
Proof. unfold Rleb; destruct (Rle_dec x y); split; intros; auto; discriminate. Qed.

Lemma Rleb_false (x y : R) : Rleb x y = false <-> y < x.
Proof.
  unfold Rleb; destruct (Rle_dec x y); split; intros; auto; try discriminate; lra.
Qed.

Lemma Rltb_true (x y : R) : Rltb x y = true <-> x < y.
Proof. unfold Rltb; destruct (Rlt_dec x y); split; intros; auto; discriminate. Qed.

Lemma Rltb_false (x y : R) : Rltb x y = false <-> y <= x.
Proof.
  unfold Rltb; destruct (Rlt_dec x y); split; intros; auto; try discriminate; lra.
Qed.

Lemma Rgeb_true (x y : R) : Rgeb x y = true <-> y <= x.
Proof. apply Rleb_true. Qed.


(** ** Lists *)

Lemma vec_and_map {A : Type} (f g : A -> bool) (l : list A) :
  vec_and (map f l) (map g l) = map (fun x => f x && g x) l.
Proof. induction l as [|x l IH]; cbn; [reflexivity | now rewrite IH]. Qed.

Lemma select_map_filter {A : Type} (f : A -> bool) (l : list A) :
  select (map f l) l = filter f l.
Proof.
  induction l as [|x l IH]; cbn; [reflexivity|].
  destruct (f x); now rewrite IH.
Qed.

Lemma filter_map_shift {A B : Type} (g : A -> B) (f : B -> bool) (l : list A) :
  filter f (map g l) = map g (filter (fun x => f (g x)) l).
Proof.
  induction l as [|x l IH]; cbn; [reflexivity|].
  destruct (f (g x)); cbn; now rewrite IH.
Qed.


Lemma nth_map_seq {A : Type} (d : A) (g : nat -> A) (c j : nat) :
  (j < c)%nat -> nth j (map g (seq 0 c)) d = g j.
Proof.
  intros Hj.
  rewrite (nth_indep _ d (g 0%nat)) by now rewrite length_map, length_seq.
  now rewrite map_nth, seq_nth.
Qed.

Lemma map_nth_seq {A : Type} (d : A) (l : list A) :
  map (fun j => nth j l d) (seq 0 (length l)) = l.
Proof.
  apply nth_ext with (d := d) (d' := d).
  - now rewrite length_map, length_seq.
  - intros n Hn. rewrite length_map, length_seq in Hn.
    now rewrite nth_map_seq.
Qed.

(** ** The bounds filters *)

Lemma in_boundsb_spec (r : list R) (shape : Z * Z) :
  in_boundsb r shape = true <-> in_bounds r shape.
Proof.
  unfold in_boundsb, in_bounds.
  rewrite !andb_true_iff, !Rgeb_true, !Rltb_true. tauto.
Qed.

Lemma bounds_mask_spec (a : ndarray) (shape : Z * Z) :
  (2 <= ncols a)%nat ->
  bounds_mask a shape = Some (map (fun r => in_boundsb r shape) (rows a)).
Proof.
  intros Hc. unfold bounds_mask, col.
  destruct (Nat.ltb_spec 0 (ncols a)); [|lia].
  destruct (Nat.ltb_spec 1 (ncols a)); [|lia].
  cbn [bind]. unfold vec_ge, vec_lt. rewrite !map_map, !vec_and_map.
  reflexivity.
Qed.

(** C6. [filter_keypoints(points, shape)], on an array of at least two
    columns, returns the rows of [points], in their order, whose column 0
    is in [[0, height)] and whose column 1 is in [[0, width)], and no
    others; a row at [(height, 0)] is not among them. *)
Theorem filter_keypoints_in_bounds (points : ndarray) (shape : Z * Z) :
  (2 <= ncols points)%nat ->
  exists kept,
    filter_keypoints points shape = Some (mk_ndarray (ncols points) kept)
    /\ kept = filter (fun r => in_boundsb r shape) (rows points)
    /\ (forall r, In r kept <-> In r (rows points) /\ in_bounds r shape)
    /\ ~ In [IZR (fst shape); 0] kept.
Proof.
  intros Hc. eexists. split; [|split; [reflexivity|split]].
  - unfold filter_keypoints. rewrite bounds_mask_spec by assumption.
    cbn [bind]. unfold bool_index, nrows. rewrite length_map, Nat.eqb_refl.
    now rewrite select_map_filter.
  - intros r. now rewrite filter_In, in_boundsb_spec.
  - rewrite filter_In, in_boundsb_spec. unfold in_bounds. cbn. lra.
Qed.

Lemma filter_keypoints_in_bounds_witness :
  exists kept,
    filter_keypoints (mk_ndarray 2 [[1; 1]; [4; 0]]) (4, 3)%Z
    = Some (mk_ndarray 2 kept)
    /\ kept = filter (fun r => in_boundsb r (4, 3)%Z) [[1; 1]; [4; 0]]
    /\ (forall r, In r kept <-> In r [[1; 1]; [4; 0]] /\ in_bounds r (4, 3)%Z)
    /\ ~ In [IZR 4; 0] kept.
Proof.
  apply (filter_keypoints_in_bounds (mk_ndarray 2 [[1; 1]; [4; 0]]) (4, 3)%Z).
  cbn. lia.
Defined.

Lemma keep_true_keypoints_by_rows (points ckw : ndarray) (shape : Z * Z) :
  nrows points = nrows ckw ->
  (2 <= ncols ckw)%nat ->
  exists kept,
    keep_true_keypoints points ckw shape = Some kept
    /\ ncols kept = ncols points.
Proof.
  intros Hn Hc. unfold keep_true_keypoints.
  rewrite bounds_mask_spec by assumption. cbn [bind]. unfold bool_index.
  rewrite length_map. fold (nrows ckw). rewrite <- Hn, Nat.eqb_refl.
  eexists. split; reflexivity.
Qed.



(** ** Normalization *)

Lemma stretched_lt (len : nat) (l : list R) (j : nat) :
  (j < len)%nat -> stretched len l j = nth j l 0.
Proof.
  intros Hj. unfold stretched.
  destruct (Nat.eqb_spec len 1) as [->|]; [|reflexivity].
  now replace j with 0%nat by lia.
Qed.

Lemma arr_op_same (op : R -> R -> R) (kp : ndarray) (v : list R) :
  ncols kp = length v ->
  arr_op op kp v
  = Some (mk_ndarray (ncols kp)
            (map (fun r => map (fun j => op (nth j r 0) (nth j v 0))
                               (seq 0 (ncols kp)))
                 (rows kp))).
Proof.
  intros Hc. unfold arr_op, broadcast. rewrite <- Hc, Nat.eqb_refl. cbn [bind].
  f_equal. f_equal. apply map_ext. intros r. apply map_ext_in.
  intros j Hj. apply in_seq in Hj. now rewrite !stretched_lt by lia.
Qed.

Lemma arr_op_twice (op1 op2 : R -> R -> R) (kp : ndarray) (u v : list R) :
  ncols kp = length u -> length v = length u ->
  (t <- arr_op op1 kp u ;; arr_op op2 t v)
  = Some (mk_ndarray (ncols kp)
            (map (fun r => map (fun j => op2 (op1 (nth j r 0) (nth j u 0))
                                             (nth j v 0))
                               (seq 0 (ncols kp)))
                 (rows kp))).
Proof.
  intros Hu Hv. rewrite arr_op_same by assumption. cbn [bind].
  rewrite arr_op_same by (cbn; congruence). cbn [ncols rows].
  f_equal. f_equal. rewrite map_map. apply map_ext. intros r.
  apply map_ext_in. intros j Hj. apply in_seq in Hj.
  now rewrite nth_map_seq by lia.
Qed.

Lemma rows_rebuilt (kp : ndarray) (g : list R -> nat -> R) :
  wf kp ->
  (forall r j, (j < ncols kp)%nat -> g r j = nth j r 0) ->
  mk_ndarray (ncols kp) (map (fun r => map (g r) (seq 0 (ncols kp))) (rows kp))
  = kp.
Proof.
  intros Hwf Hg. destruct kp as [c rs]. unfold wf in Hwf. cbn in *. f_equal.
  induction Hwf as [|r rs Hr Hrs IH]; [reflexivity|].
  cbn [map]. f_equal; [|exact IH].
  rewrite <- (map_nth_seq 0 r) at 2. rewrite Hr. apply map_ext_in.
  intros j Hj. apply in_seq in Hj. apply Hg. lia.
Qed.

(** C7. With one scale and one anchor per column and no scale equal to 0,
    [normalize_keypoints] computes [p / f - a] entry by entry,
    [unnormalize_keypoints] computes [(p + a) * f], and each undoes the
    other exactly. *)
Theorem unnormalize_normalize (kp : ndarray) (f a : list R) :
  wf kp ->
  ncols kp = length f ->
  length a = length f ->
  Forall (fun s => s <> 0) f ->
  (exists n,
      normalize_keypoints kp f a = Some n
      /\ rows n = map (fun r => map (fun j => nth j r 0 / nth j f 0 - nth j a 0)
                                   (seq 0 (ncols kp)))
                      (rows kp)
      /\ unnormalize_keypoints n f a = Some kp)
  /\ (exists u,
      unnormalize_keypoints kp f a = Some u
      /\ rows u = map (fun r => map (fun j => (nth j r 0 + nth j a 0) * nth j f 0)
                                   (seq 0 (ncols kp)))
                      (rows kp)
      /\ normalize_keypoints u f a = Some kp).
Proof.
  intros Hwf Hf Ha Hnz.
  assert (Hnz' : forall j, (j < ncols kp)%nat -> nth j f 0 <> 0).
  { intros j Hj. rewrite Forall_forall in Hnz. apply Hnz, nth_In. lia. }
  split; eexists; (split; [|split]).
  - unfold normalize_keypoints. now apply arr_op_twice.
  - reflexivity.
  - unfold unnormalize_keypoints.
    rewrite arr_op_twice by (cbn; congruence). cbn [ncols rows].
    rewrite map_map. f_equal.
    rewrite <- (rows_rebuilt kp (fun r j => nth j r 0)) at 3 by auto.
    f_equal. apply map_ext. intros r. apply map_ext_in. intros j Hj.
    apply in_seq in Hj. rewrite nth_map_seq by lia.
    specialize (Hnz' j ltac:(lia)). now field.
  - unfold unnormalize_keypoints. apply arr_op_twice; congruence.
  - reflexivity.
  - unfold normalize_keypoints.
    rewrite arr_op_twice by (cbn; congruence). cbn [ncols rows].
    rewrite map_map. f_equal.
    rewrite <- (rows_rebuilt kp (fun r j => nth j r 0)) at 3 by auto.
    f_equal. apply map_ext. intros r. apply map_ext_in. intros j Hj.
    apply in_seq in Hj. rewrite nth_map_seq by lia.
    specialize (Hnz' j ltac:(lia)). now field.
Qed.

Lemma unnormalize_normalize_witness :
  exists n,
    normalize_keypoints (mk_ndarray 2 [[256; 128]]) [256; 256] [1; 1] = Some n
    /\ unnormalize_keypoints n [256; 256] [1; 1]
       = Some (mk_ndarray 2 [[256; 128]]).
Proof.
  destruct (unnormalize_normalize (mk_ndarray 2 [[256; 128]]) [256; 256] [1; 1])
    as [[n [H1 [_ H2]]] _].
  - repeat constructor.
  - reflexivity.
  - reflexivity.
  - repeat constructor; lra.
  - exists n. now split.
Defined.

(** ** Sorting *)

Section InsertionArgsort.

Variable before : R -> R -> bool.
Hypothesis before_true : forall x y, before x y = true -> x <= y.
Hypothesis before_false : forall x y, before x y = false -> y <= x.

Lemma insert_idx_perm (v : list R) (i : nat) (l : list nat) :
  Permutation (insert_idx before v i l) (i :: l).
Proof.
  induction l as [|j t IH]; cbn; [reflexivity|].
  destruct (before _ _); [reflexivity|].
  rewrite IH. apply perm_swap.
Qed.

Lemma insert_idx_sorted (v : list R) (i : nat) (l : list nat) :
  StronglySorted (fun a b => nth a v 0 <= nth b v 0) l ->
  StronglySorted (fun a b => nth a v 0 <= nth b v 0) (insert_idx before v i l).
Proof.
  induction 1 as [|j t Ht IH Hj]; cbn.
  - repeat constructor.
  - destruct (before _ _) eqn:E.
    + apply before_true in E. constructor; [now constructor|].
      constructor; [exact E|].
      rewrite Forall_forall in *. intros x Hx. specialize (Hj x Hx). lra.
    + apply before_false in E. constructor; [exact IH|].
      rewrite Forall_forall in *. intros x Hx.
      apply (Permutation_in _ (insert_idx_perm v i t)) in Hx.
      destruct Hx as [<-|Hx]; [exact E | now apply Hj].
Qed.

Lemma insertion_sorted (v : list R) (idx : list nat) :
  StronglySorted (fun a b => nth a v 0 <= nth b v 0)
    (fold_right (insert_idx before v) [] idx).
Proof.
  induction idx as [|i idx IH]; cbn; [constructor | now apply insert_idx_sorted].
Qed.

Lemma insertion_perm (v : list R) (idx : list nat) :
  Permutation (fold_right (insert_idx before v) [] idx) idx.
Proof.
  induction idx as [|i idx IH]; cbn; [reflexivity|].
  rewrite insert_idx_perm. now constructor.
Qed.

End InsertionArgsort.

Lemma StronglySorted_map {A B : Type} (f : A -> B) (P : B -> B -> Prop)
    (l : list A) :
  StronglySorted (fun a b => P (f a) (f b)) l -> StronglySorted P (map f l).
Proof.
  induction 1 as [|x l Hl IH Hx]; cbn; constructor; [exact IH|].
  rewrite Forall_forall in *. intros y Hy. apply in_map_iff in Hy.
  destruct Hy as [z [<- Hz]]. now apply Hx.
Qed.

Lemma insertion_argsort_ok : ArgSortOk insertion_argsort.
Proof.
  split; intros v; unfold argsort, insertion_argsort.
  - apply insertion_perm.
  - apply StronglySorted_map, insertion_sorted.
    + intros x y. apply Rleb_true.
    + intros x y Hxy. apply Rleb_false in Hxy. lra.
Qed.

Lemma reversing_argsort_ok : ArgSortOk reversing_argsort.
Proof.
  split; intros v; unfold argsort, reversing_argsort.
  - apply insertion_perm.
  - apply StronglySorted_map, insertion_sorted.
    + intros x y Hxy. apply Rltb_true in Hxy. lra.
    + intros x y. apply Rltb_false.
Qed.

(** Two lists with the same elements, both ascending in a key that no two
    elements share, are the same list. *)
Lemma sorted_by_key_unique {A : Type} (key : A -> R) :
  forall l1 l2 : list A,
    Permutation l1 l2 ->
    NoDup (map key l1) ->
    StronglySorted (fun a b => key a <= key b) l1 ->
    StronglySorted (fun a b => key a <= key b) l2 ->
    l1 = l2.
Proof.
  induction l1 as [|a t1 IH]; intros l2 Hp Hnd H1 H2.
  - now apply Permutation_nil in Hp.
  - destruct l2 as [|b t2].
    { apply Permutation_sym, Permutation_nil in Hp. discriminate. }
    apply StronglySorted_inv in H1. destruct H1 as [H1 Ha].
    apply StronglySorted_inv in H2. destruct H2 as [H2 Hb].
    rewrite Forall_forall in Ha, Hb.
    inversion Hnd as [|? ? Hna Hnd']; subst.
    assert (Hba : In b (a :: t1))
      by (apply (Permutation_in _ (Permutation_sym Hp)); now left).
    assert (Hab : In a (b :: t2))
      by (apply (Permutation_in _ Hp); now left).
    assert (a = b) as <-.
    { destruct Hba as [Hba|Hba]; [exact Hba|]. exfalso.
      destruct Hab as [Hab|Hab]; [subst; apply Hna; now apply in_map|].
      specialize (Ha b Hba). specialize (Hb a Hab).
      apply Hna. replace (key a) with (key b) by lra. now apply in_map. }
    f_equal. apply IH; auto. now apply Permutation_cons_inv in Hp.
Qed.

Lemma map_inj_in {A B : Type} (f : A -> B) :
  forall l1 l2 : list A,
    (forall x y, In x l1 -> In y l2 -> f x = f y -> x = y) ->
    map f l1 = map f l2 -> l1 = l2.
Proof.
  induction l1 as [|x l1 IH]; intros [|y l2] Hinj Heq; try discriminate;
    [reflexivity|].
  cbn in Heq. injection Heq as Hxy Heq. f_equal.
  - apply Hinj; cbn; auto.
  - apply IH; [|exact Heq]. intros; apply Hinj; cbn; auto.
Qed.

Section ArgSortFacts.

Context {AS : ArgSort} {Hok : ArgSortOk AS}.

Lemma argsort_in_range (v : list R) (i : nat) :
  In i (argsort v) -> (i < length v)%nat.
Proof.
  intros Hi. apply (Permutation_in _ (argsort_perm v)) in Hi.
  apply in_seq in Hi. lia.
Qed.

Lemma argsort_length (v : list R) : length (argsort v) = length v.
Proof.
  rewrite (Permutation_length (argsort_perm v)). apply length_seq.
Qed.

Lemma argsort_forallb (v : list R) :
  forallb (fun i => (i <? length v)%nat) (argsort v) = true.
Proof.
  apply forallb_forall. intros i Hi. apply Nat.ltb_lt.
  now apply argsort_in_range.
Qed.

(** A vector already in strictly ascending order is left in place. *)
Lemma argsort_sorted_id (v : list R) :
  StronglySorted Rle v -> NoDup v -> argsort v = seq 0 (length v).
Proof.
  intros Hs Hnd.
  assert (Hmap : map (fun i => nth i v 0) (argsort v) = v).
  { apply (sorted_by_key_unique (fun x => x)).
    - rewrite <- (map_nth_seq 0 v) at 2.
      apply Permutation_map, argsort_perm.
    - rewrite map_id. apply (Permutation_NoDup (l := v)); [|exact Hnd].
      rewrite <- (map_nth_seq 0 v) at 1.
      apply Permutation_sym, Permutation_map, argsort_perm.
    - apply argsort_sorted.
    - exact Hs. }
  rewrite <- (map_nth_seq 0 v) in Hmap at 2.
  apply map_inj_in in Hmap; [exact Hmap|].
  intros x y Hx Hy Hxy. apply argsort_in_range in Hx. apply in_seq in Hy.
  apply (proj1 (NoDup_nth v 0) Hnd); auto; lia.
Qed.

End ArgSortFacts.

(** ** Slices *)

Lemma slice_from_0 {A : Type} (l : list A) : slice_from 0 l = l.
Proof.
  unfold slice_from. cbn [Z.ltb Z.compare].
  replace (Z.to_nat (Z.min 0 (Z.of_nat (length l)))) with 0%nat by lia.
  reflexivity.
Qed.

Lemma slice_from_last {A : Type} (l : list A) (m : Z) :
  (1 <= m <= Z.of_nat (length l))%Z ->
  slice_from (- m) l = lastn (Z.to_nat m) l.
Proof.
  intros Hm. unfold slice_from, lastn.
  destruct (Z.ltb_spec (- m) 0); [|lia]. f_equal. lia.
Qed.

Lemma slice_from_map {A B : Type} (f : A -> B) (i : Z) (l : list A) :
  slice_from i (map f l) = map f (slice_from i l).
Proof. unfold slice_from. now rewrite length_map, skipn_map. Qed.

Lemma lastn_all {A : Type} (l : list A) (m : nat) :
  (length l <= m)%nat -> lastn m l = l.
Proof.
  intros Hm. unfold lastn. now replace (length l - m)%nat with 0%nat by lia.
Qed.

Lemma lastn_length {A : Type} (l : list A) (m : nat) :
  (m <= length l)%nat -> length (lastn m l) = m.
Proof. intros Hm. unfold lastn. rewrite length_skipn. lia. Qed.

(** ** Top-k selection *)

Lemma confidence_nth (rs : list (list R)) (i : nat) :
  nth i (map (fun r => nth 2 r 0) rs) 0 = confidence (nth i rs []).
Proof. exact (map_nth (fun r => nth 2 r 0) rs [] i). Qed.

Section TopK.

Context {AS : ArgSort} {Hok : ArgSortOk AS}.

Lemma ordered_rows_perm (S : ndarray) : Permutation (ordered_rows S) (rows S).
Proof.
  unfold ordered_rows. rewrite <- (map_nth_seq [] (rows S)) at 2.
  apply Permutation_map.
  rewrite <- (length_map (fun r => nth 2 r 0) (rows S)). apply argsort_perm.
Qed.

Lemma ordered_rows_length (S : ndarray) : length (ordered_rows S) = nrows S.
Proof. apply Permutation_length, ordered_rows_perm. Qed.

Lemma ordered_rows_confidence (S : ndarray) :
  map confidence (ordered_rows S)
  = map (fun i => nth i (map (fun r => nth 2 r 0) (rows S)) 0)
        (argsort (map (fun r => nth 2 r 0) (rows S))).
Proof.
  unfold ordered_rows. rewrite map_map. apply map_ext.
  intros i. symmetry. apply confidence_nth.
Qed.

Lemma ordered_rows_sorted (S : ndarray) :
  StronglySorted (fun r s => confidence r <= confidence s) (ordered_rows S).
Proof.
  assert (H := argsort_sorted (map (fun r => nth 2 r 0) (rows S))).
  rewrite <- ordered_rows_confidence in H.
  induction (ordered_rows S) as [|r l IH]; [constructor|].
  cbn in H. apply StronglySorted_inv in H. destruct H as [H Hr].
  constructor; [now apply IH|].
  rewrite Forall_forall in *. intros s Hs. apply Hr. now apply in_map.
Qed.

Lemma argsort_rows_forallb (S : ndarray) :
  forallb (fun i => (i <? length (rows S))%nat)
          (argsort (map (fun r => nth 2 r 0) (rows S))) = true.
Proof.
  rewrite <- (length_map (fun r => nth 2 r 0) (rows S)).
  apply argsort_forallb.
Qed.

Lemma select_k_best_eq (S : ndarray) (k : Z) :
  (3 <= ncols S)%nat ->
  select_k_best S k
  = Some (mk_ndarray 2
            (slice_from (- Z.min k (Z.of_nat (nrows S)))
                        (map (firstn 2) (ordered_rows S)))).
Proof.
  intros Hc. unfold select_k_best, col.
  destruct (Nat.ltb_spec 2 (ncols S)); [|lia]. cbn [bind].
  unfold fancy_index, nrows. rewrite argsort_rows_forallb. cbn [bind]. unfold rows_from, cols_upto.
  cbn [ncols rows]. f_equal. f_equal. lia.
Qed.

Lemma scored_selection_eq (S : ndarray) (k : Z) :
  (3 <= ncols S)%nat ->
  scored_selection S k
  = Some (mk_ndarray (ncols S)
            (slice_from (- Z.min k (Z.of_nat (nrows S))) (ordered_rows S))).
Proof.
  intros Hc. unfold scored_selection, col.
  destruct (Nat.ltb_spec 2 (ncols S)); [|lia]. cbn [bind].
  unfold fancy_index, nrows. rewrite argsort_rows_forallb. cbn [bind]. unfold rows_from.
  cbn [ncols rows]. reflexivity.
Qed.

End TopK.

(** *** The selection as the description words it *)

Lemma insert_row_perm (r : list R) (l : list (list R)) :
  Permutation (insert_row r l) (r :: l).
Proof.
  induction l as [|s t IH]; cbn; [reflexivity|].
  destruct (Rleb _ _); [reflexivity|]. rewrite IH. apply perm_swap.
Qed.

Lemma sort_by_confidence_perm (l : list (list R)) :
  Permutation (sort_by_confidence l) l.
Proof.
  induction l as [|r l IH]; cbn; [reflexivity|].
  rewrite insert_row_perm. now constructor.
Qed.

Lemma insert_row_sorted (r : list R) (l : list (list R)) :
  StronglySorted (fun a b => confidence a <= confidence b) l ->
  StronglySorted (fun a b => confidence a <= confidence b) (insert_row r l).
Proof.
  induction 1 as [|s t Ht IH Hs]; cbn.
  - repeat constructor.
  - destruct (Rleb _ _) eqn:E.
    + apply Rleb_true in E. constructor; [now constructor|].
      constructor; [exact E|].
      rewrite Forall_forall in *. intros x Hx. specialize (Hs x Hx). lra.
    + apply Rleb_false in E. constructor; [exact IH|].
      rewrite Forall_forall in *. intros x Hx.
      apply (Permutation_in _ (insert_row_perm r t)) in Hx.
      destruct Hx as [<-|Hx]; [lra | now apply Hs].
Qed.

Lemma sort_by_confidence_sorted (l : list (list R)) :
  StronglySorted (fun a b => confidence a <= confidence b) (sort_by_confidence l).
Proof.
  induction l as [|r l IH]; cbn; [constructor | now apply insert_row_sorted].
Qed.

(** With confidences that are pairwise distinct every [argsort] gives the
    order of the stable sort. *)
Lemma ordered_rows_distinct {AS : ArgSort} {Hok : ArgSortOk AS} (S : ndarray) :
  NoDup (map confidence (rows S)) ->
  ordered_rows S = sort_by_confidence (rows S).
Proof.
  intros Hnd. apply (sorted_by_key_unique confidence).
  - rewrite ordered_rows_perm. apply Permutation_sym, sort_by_confidence_perm.
  - apply (Permutation_NoDup (l := map confidence (rows S))); [|exact Hnd].
    apply Permutation_map, Permutation_sym, ordered_rows_perm.
  - apply ordered_rows_sorted.
  - apply sort_by_confidence_sorted.
Qed.

(** The stable instance gives that order whatever the confidences. *)
Lemma map_insert_idx (v : list R) (f : nat -> list R) (i : nat) (l : list nat) :
  (forall j, confidence (f j) = nth j v 0) ->
  map f (insert_idx Rleb v i l) = insert_row (f i) (map f l).
Proof.
  intros Hf. induction l as [|j t IH]; cbn; [reflexivity|].
  rewrite !Hf. destruct (Rleb _ _); cbn; [reflexivity | now rewrite IH].
Qed.

Lemma ordered_rows_insertion (S : ndarray) :
  @ordered_rows insertion_argsort S = sort_by_confidence (rows S).
Proof.
  unfold ordered_rows, argsort, insertion_argsort, sort_by_confidence.
  rewrite length_map.
  rewrite <- (map_nth_seq [] (rows S)) at 3.
  induction (seq 0 (length (rows S))) as [|i idx IH]; cbn [map fold_right];
    [reflexivity|].
  rewrite map_insert_idx, IH; [reflexivity|].
  intros j. symmetry. apply confidence_nth.
Qed.

Lemma ordered_rows_stable {AS : ArgSort} (S : ndarray) :
  ArgSortStable AS -> ordered_rows S = sort_by_confidence (rows S).
Proof.
  intros Hst. rewrite <- ordered_rows_insertion. unfold ordered_rows.
  now rewrite Hst.
Qed.

(** The order of the description, whenever it is determined. *)
Lemma ordered_rows_determined {AS : ArgSort} {Hok : ArgSortOk AS} (S : ndarray) :
  NoDup (map confidence (rows S)) \/ ArgSortStable AS ->
  ordered_rows S = sort_by_confidence (rows S).
Proof.
  intros [Hnd|Hst]; [now apply ordered_rows_distinct | now apply ordered_rows_stable].
Qed.

Lemma sort_by_confidence_sorted_id (l : list (list R)) :
  StronglySorted (fun a b => confidence a <= confidence b) l ->
  sort_by_confidence l = l.
Proof.
  induction 1 as [|r l Hl IH Hr]; [reflexivity|].
  cbn [sort_by_confidence fold_right]. fold (sort_by_confidence l). rewrite IH.
  destruct l as [|s l]; [reflexivity|]. cbn [insert_row].
  inversion Hr as [|? ? Hrs _]; subst. apply Rleb_true in Hrs. now rewrite Hrs.
Qed.

Lemma lastn_map {A B : Type} (f : A -> B) (m : nat) (l : list A) :
  lastn m (map f l) = map f (lastn m l).
Proof. unfold lastn. now rewrite length_map, skipn_map. Qed.

Lemma slice_from_top {A : Type} (l : list A) (k : Z) :
  (1 <= k)%Z ->
  slice_from (- Z.min k (Z.of_nat (length l))) l
  = lastn (Nat.min (Z.to_nat k) (length l)) l.
Proof.
  intros Hk. destruct l as [|x l].
  - unfold slice_from, lastn. now rewrite !skipn_nil.
  - rewrite slice_from_last by (cbn [length]; lia). f_equal. lia.
Qed.

Lemma slice_from_again {A : Type} (l : list A) (k : Z) :
  (0 <= k)%Z ->
  let t := slice_from (- Z.min k (Z.of_nat (length l))) l in
  slice_from (- Z.min k (Z.of_nat (length t))) t = t.
Proof.
  intros Hk t.
  destruct (Z.eq_dec k 0) as [->|Hk0].
  - subst t. replace (Z.min 0 (Z.of_nat (length l))) with 0%Z by lia.
    cbn [Z.opp]. rewrite slice_from_0.
    replace (Z.min 0 (Z.of_nat (length l))) with 0%Z by lia.
    apply slice_from_0.
  - assert (Ht : t = lastn (Nat.min (Z.to_nat k) (length l)) l)
      by (apply slice_from_top; lia).
    assert (Hlen : length t = Nat.min (Z.to_nat k) (length l))
      by (rewrite Ht; apply lastn_length; lia).
    rewrite slice_from_top by lia. apply lastn_all. lia.
Qed.

Lemma StronglySorted_skipn {A : Type} (P : A -> A -> Prop) (j : nat) :
  forall l, StronglySorted P l -> StronglySorted P (skipn j l).
Proof.
  induction j as [|j IH]; intros l Hl; [exact Hl|].
  destruct l as [|x l]; [exact Hl|]. cbn. apply IH.
  now apply StronglySorted_inv in Hl.
Qed.

Lemma NoDup_skipn {A : Type} (j : nat) :
  forall l : list A, NoDup l -> NoDup (skipn j l).
Proof.
  induction j as [|j IH]; intros l Hl; [exact Hl|].
  destruct l as [|x l]; [exact Hl|]. cbn. apply IH. now inversion Hl.
Qed.

(** C10. [select_k_best(S, 0)] does not return zero rows: it returns the
    two coordinates of every row of [S], in ascending order of confidence.
    The result is empty only when [S] is. *)
Theorem select_k_best_zero {AS : ArgSort} {Hok : ArgSortOk AS} (S : ndarray) :
  (3 <= ncols S)%nat ->
  select_k_best S 0 = Some (mk_ndarray 2 (map (firstn 2) (ordered_rows S)))
  /\ Permutation (ordered_rows S) (rows S)
  /\ StronglySorted (fun r s => confidence r <= confidence s) (ordered_rows S)
  /\ length (map (firstn 2) (ordered_rows S)) = nrows S
  /\ (map (firstn 2) (ordered_rows S) = [] <-> rows S = []).
Proof.
  intros Hc. split; [|split; [|split; [|split]]].
  - rewrite select_k_best_eq by assumption.
    replace (Z.min 0 (Z.of_nat (nrows S))) with 0%Z by lia.
    cbn [Z.opp]. now rewrite slice_from_0.
  - apply ordered_rows_perm.
  - apply ordered_rows_sorted.
  - rewrite length_map. apply ordered_rows_length.
  - rewrite <- !length_zero_iff_nil, length_map, ordered_rows_length.
    reflexivity.
Qed.

Lemma select_k_best_zero_witness :
  @select_k_best insertion_argsort
    (mk_ndarray 3 [[0; 0; 0.9]; [10; 10; 0.5]]) 0
  = Some (mk_ndarray 2 [[10; 10]; [0; 0]]).
Proof.
  destruct (@select_k_best_zero insertion_argsort insertion_argsort_ok
              (mk_ndarray 3 [[0; 0; 0.9]; [10; 10; 0.5]])) as [H _];
    [cbn; lia|].
  rewrite H. unfold ordered_rows, argsort, insertion_argsort.
  rcompute. reflexivity.
Defined.

(** C4, as the code has it.  For [k >= 1], [select_k_best(S, k)] returns
    the last [min(k, N)] rows of [S] put in ascending order of confidence
    by [argsort], without their confidence.  When no two confidences are
    equal, or when [argsort] is stable, this is the selection the
    description words, ties in the order of [S]. *)
Theorem select_k_best_top_k {AS : ArgSort} {Hok : ArgSortOk AS}
    (S : ndarray) (k : Z) :
  (3 <= ncols S)%nat ->
  (1 <= k)%Z ->
  select_k_best S k
  = Some (mk_ndarray 2
            (map (firstn 2)
                 (lastn (Nat.min (Z.to_nat k) (nrows S)) (ordered_rows S))))
  /\ Permutation (ordered_rows S) (rows S)
  /\ StronglySorted (fun r s => confidence r <= confidence s) (ordered_rows S)
  /\ (NoDup (map confidence (rows S)) \/ ArgSortStable AS ->
      select_k_best S k
      = Some (mk_ndarray 2 (select_top_k (rows S) (Z.to_nat k)))).
Proof.
  intros Hc Hk.
  assert (Heq : select_k_best S k
                = Some (mk_ndarray 2
                          (map (firstn 2)
                               (lastn (Nat.min (Z.to_nat k) (nrows S))
                                      (ordered_rows S))))).
  { rewrite select_k_best_eq by assumption.
    rewrite <- (ordered_rows_length S) at 1.
    rewrite <- (length_map (firstn 2) (ordered_rows S)).
    rewrite slice_from_top by assumption.
    now rewrite lastn_map, length_map, ordered_rows_length. }
  split; [exact Heq|]. split; [apply ordered_rows_perm|].
  split; [apply ordered_rows_sorted|].
  intros Hdet. rewrite Heq. unfold select_top_k.
  now rewrite ordered_rows_determined.
Qed.

Lemma select_k_best_top_k_witness :
  @select_k_best insertion_argsort
    (mk_ndarray 3 [[0; 0; 0.9]; [10; 10; 0.5]]) 1
  = Some (mk_ndarray 2 [[0; 0]]).
Proof.
  destruct (@select_k_best_top_k insertion_argsort insertion_argsort_ok
              (mk_ndarray 3 [[0; 0; 0.9]; [10; 10; 0.5]]) 1) as [H _];
    [cbn; lia | lia |].
  rewrite H. unfold ordered_rows, argsort, insertion_argsort.
  rcompute. reflexivity.
Defined.

(** C4 fails at [k = 0]: the selection of the description is empty, the
    code returns the row. *)
Lemma select_k_best_zero_not_top_k :
  @select_k_best insertion_argsort (mk_ndarray 3 [[1; 2; 0.5]]) 0
  = Some (mk_ndarray 2 [[1; 2]])
  /\ select_top_k [[1; 2; 0.5]] 0 = []
  /\ @select_k_best insertion_argsort (mk_ndarray 3 [[1; 2; 0.5]]) 0
     <> Some (mk_ndarray 2 (select_top_k [[1; 2; 0.5]] 0)).
Proof.
  split; [reflexivity|]. split; [reflexivity|].
  intros H. discriminate H.
Qed.

(** numpy's promise about [argsort] does not give the tie order of the
    description: a sort that meets it returns two rows of one confidence
    in the reverse of their order in [S]. *)
Lemma select_k_best_ties_open :
  ArgSortOk reversing_argsort
  /\ @select_k_best reversing_argsort
       (mk_ndarray 3 [[1; 1; 0.5]; [2; 2; 0.5]]) 2
     = Some (mk_ndarray 2 [[2; 2]; [1; 1]])
  /\ select_top_k [[1; 1; 0.5]; [2; 2; 0.5]] 2 = [[1; 1]; [2; 2]].
Proof.
  split; [exact reversing_argsort_ok|]. split.
  - unfold select_k_best, argsort, reversing_argsort. rcompute. reflexivity.
  - unfold select_top_k, sort_by_confidence. rcompute. reflexivity.
Qed.

(** C9 fails: the result of [select_k_best] has two columns, and
    [points[:, 2]] raises on it. *)
Lemma select_k_best_twice_raises :
  @select_k_best insertion_argsort (mk_ndarray 3 [[0; 0; 0.5]]) 1
  = Some (mk_ndarray 2 [[0; 0]])
  /\ (T <- @select_k_best insertion_argsort (mk_ndarray 3 [[0; 0; 0.5]]) 1 ;;
      @select_k_best insertion_argsort T 1) = None.
Proof. split; reflexivity. Qed.

(** A second selection on the rows kept, when [argsort] leaves them in
    place. *)
Lemma reselect_in_place {AS : ArgSort} {Hok : ArgSortOk AS}
    (S T : ndarray) (k : Z) :
  (3 <= ncols S)%nat ->
  (0 <= k)%Z ->
  scored_selection S k = Some T ->
  ordered_rows T = rows T ->
  select_k_best T k = select_k_best S k.
Proof.
  intros Hc Hk HT Hord.
  rewrite scored_selection_eq in HT by assumption. injection HT as HT.
  assert (HcT : (3 <= ncols T)%nat) by now subst T.
  assert (Hrows : rows T
                  = slice_from (- Z.min k (Z.of_nat (length (ordered_rows S))))
                               (ordered_rows S))
    by (rewrite ordered_rows_length; now subst T).
  rewrite !select_k_best_eq by assumption. rewrite Hord. f_equal. f_equal.
  rewrite !slice_from_map. f_equal. unfold nrows at 1. rewrite Hrows.
  rewrite (slice_from_again (ordered_rows S) k Hk).
  now rewrite ordered_rows_length.
Qed.

Lemma scored_selection_suffix {AS : ArgSort} {Hok : ArgSortOk AS}
    (S T : ndarray) (k : Z) :
  (3 <= ncols S)%nat ->
  scored_selection S k = Some T ->
  exists j, rows T = skipn j (ordered_rows S).
Proof.
  intros Hc HT. rewrite scored_selection_eq in HT by assumption.
  injection HT as <-. cbn [rows]. unfold slice_from. eauto.
Qed.

(** C9, as the code has it.  No result of [select_k_best] can be given to
    it again.  On the rows it kept, with their confidence, a second
    selection with the same [k >= 0] returns what the first returned, when
    no two confidences are equal or [argsort] is stable. *)
Theorem select_k_best_reselect {AS : ArgSort} {Hok : ArgSortOk AS}
    (S T : ndarray) (k : Z) :
  (3 <= ncols S)%nat ->
  (0 <= k)%Z ->
  NoDup (map confidence (rows S)) \/ ArgSortStable AS ->
  scored_selection S k = Some T ->
  select_k_best T k = select_k_best S k
  /\ (forall U, select_k_best S k = Some U -> select_k_best U k = None).
Proof.
  intros Hc Hk Hdet HT. split.
  - apply reselect_in_place; auto.
    destruct (scored_selection_suffix S T k Hc HT) as [j Hj].
    assert (Hsorted : StronglySorted (fun a b => confidence a <= confidence b)
                        (rows T))
      by (rewrite Hj; apply StronglySorted_skipn, ordered_rows_sorted).
    destruct Hdet as [Hnd|Hst].
    + unfold ordered_rows. rewrite argsort_sorted_id.
      * rewrite length_map. apply map_nth_seq.
      * now apply StronglySorted_map with (f := fun r : list R => nth 2 r 0).
      * rewrite Hj, <- skipn_map. apply NoDup_skipn.
        apply (Permutation_NoDup (l := map confidence (rows S))); [|exact Hnd].
        apply Permutation_map, Permutation_sym, ordered_rows_perm.
    + rewrite ordered_rows_stable by assumption.
      now apply sort_by_confidence_sorted_id.
  - intros U HU. rewrite select_k_best_eq in HU by assumption.
    injection HU as <-. reflexivity.
Qed.

Lemma select_k_best_reselect_witness :
  @select_k_best insertion_argsort
    (mk_ndarray 3 [[0; 0; 0.9]]) 1
  = @select_k_best insertion_argsort
      (mk_ndarray 3 [[0; 0; 0.9]; [10; 10; 0.5]]) 1.
Proof.
  apply (@select_k_best_reselect insertion_argsort insertion_argsort_ok
           (mk_ndarray 3 [[0; 0; 0.9]; [10; 10; 0.5]])
           (mk_ndarray 3 [[0; 0; 0.9]]) 1).
  - cbn; lia.
  - lia.
  - left. cbn. repeat constructor; cbn; intuition lra.
  - unfold scored_selection, argsort, insertion_argsort. rcompute. reflexivity.
Defined.

(** ** The correspondence statistics *)

Lemma fold_left_Rmin (l : list R) (x y : R) :
  fold_left Rmin l (Rmin x y) = Rmin x (fold_left Rmin l y).
Proof.
  revert x y. induction l as [|z l IH]; intros x y; cbn; [reflexivity|].
  now rewrite <- Rmin_assoc, IH.
Qed.

Lemma amin_min_dist (p : list R) (B : list (list R)) :
  amin (map (euclid p) B) = min_dist p B.
Proof.
  induction B as [|q B IH]; [reflexivity|].
  cbn [map min_dist]. rewrite <- IH. destruct B as [|q' B]; [reflexivity|].
  cbn [map amin fold_left]. now rewrite fold_left_Rmin.
Qed.

Lemma min_dist_some (p : list R) (B : list (list R)) :
  B <> [] -> min_dist p B = Some (nearest p B).
Proof.
  intros HB. unfold nearest. destruct B as [|q B]; [contradiction|].
  cbn. destruct (min_dist p B); reflexivity.
Qed.

Lemma euclid_sym (p q : list R) : euclid p q = euclid q p.
Proof. unfold euclid. f_equal. ring. Qed.

Lemma euclid_nonneg (p q : list R) : 0 <= euclid p q.
Proof. apply sqrt_pos. Qed.

(** [min_dist] is the distance to a nearest neighbour: it is the distance
    to a point of [B], and no point of [B] is nearer. *)
Lemma min_dist_nearest (p : list R) (B : list (list R)) (m : R) :
  min_dist p B = Some m ->
  (exists q, In q B /\ euclid p q = m)
  /\ (forall q, In q B -> m <= euclid p q).
Proof.
  revert m. induction B as [|q B IH]; intros m Hm; [discriminate|].
  cbn in Hm. destruct (min_dist p B) as [m'|] eqn:E.
  - injection Hm as <-. destruct (IH m' eq_refl) as [[q' [Hq' Hd]] Hmin].
    split.
    + unfold Rmin. destruct (Rle_dec (euclid p q) m').
      * exists q. split; [now left | reflexivity].
      * exists q'. split; [now right | exact Hd].
    + intros x [<-|Hx]; [apply Rmin_l|].
      apply Rle_trans with m'; [apply Rmin_r | now apply Hmin].
  - injection Hm as <-. destruct B; [|cbn in E; destruct (min_dist p B); discriminate].
    split.
    + exists q. split; [now left | reflexivity].
    + intros x [<-|[]]. apply Rle_refl.
Qed.

Lemma nearest_nonneg (p : list R) (B : list (list R)) : 0 <= nearest p B.
Proof.
  unfold nearest. destruct (min_dist p B) as [m|] eqn:E; [|lra].
  destruct (min_dist_nearest _ _ _ E) as [[q [_ <-]] _]. apply euclid_nonneg.
Qed.

Lemma mapM_some {A B : Type} (f : A -> option B) (g : A -> B) (l : list A) :
  (forall x, In x l -> f x = Some (g x)) -> mapM f l = Some (map g l).
Proof.
  induction l as [|x l IH]; intros Hf; [reflexivity|].
  cbn. rewrite (Hf x) by now left. cbn. rewrite IH; [reflexivity|].
  intros; apply Hf; now right.
Qed.

Lemma norm_matrix_euclid (A B : ndarray) :
  ncols A = 2%nat -> ncols B = 2%nat ->
  norm_matrix A B = Some (map (fun p => map (euclid p) (rows B)) (rows A)).
Proof.
  intros HA HB. unfold norm_matrix. rewrite HA, HB. cbn [broadcast Nat.eqb bind].
  f_equal. apply map_ext. intros p. apply map_ext. intros q.
  unfold l2norm, euclid, stretched. cbn. f_equal. ring.
Qed.

(** The minima along the rows are the nearest distances from [A] to [B]. *)
Lemma min_axis1_nearest (A B : list (list R)) :
  B <> [] ->
  min_axis1 (length B) (map (fun p => map (euclid p) B) A)
  = Some (map (fun p => nearest p B) A).
Proof.
  intros HB. unfold min_axis1.
  destruct (Nat.eqb_spec (length B) 0) as [E|_];
    [apply length_zero_iff_nil in E; contradiction|].
  rewrite mapM_some with (g := fun r => match amin r with Some m => m | None => 0 end).
  - rewrite map_map. f_equal. apply map_ext. intros p.
    now rewrite amin_min_dist.
  - intros r Hr. apply in_map_iff in Hr. destruct Hr as [p [<- _]].
    rewrite amin_min_dist, min_dist_some by assumption. reflexivity.
Qed.

(** The minima along the columns are the nearest distances from [B] to [A]. *)
Lemma min_axis0_nearest (A B : list (list R)) :
  A <> [] ->
  min_axis0 (length A) (length B) (map (fun p => map (euclid p) B) A)
  = Some (map (fun q => nearest q A) B).
Proof.
  intros HA. unfold min_axis0.
  destruct (Nat.eqb_spec (length A) 0) as [E|_];
    [apply length_zero_iff_nil in E; contradiction|].
  rewrite mapM_some with (g := fun j => nearest (nth j B []) A).
  - f_equal. rewrite <- (map_nth_seq [] B) at 2. now rewrite map_map.
  - intros j Hj. apply in_seq in Hj. rewrite map_map.
    rewrite <- (min_dist_some _ A HA), <- amin_min_dist. f_equal.
    apply map_ext. intros p.
    rewrite (nth_indep _ 0 (euclid p [])) by (rewrite length_map; lia).
    rewrite map_nth. apply euclid_sym.
Qed.

Lemma count_true_map {A : Type} (f : A -> bool) (l : list A) :
  count_true (map f l) = length (filter f l).
Proof.
  unfold count_true. now rewrite filter_map_shift, length_map.
Qed.

Lemma is_correct_nearest (p : list R) (B : list (list R)) (t : R) :
  B <> [] -> is_correct p B t = Rleb (nearest p B) t.
Proof.
  intros HB. unfold is_correct. now rewrite min_dist_some.
Qed.

Lemma matches_nearest (A B : list (list R)) (t : R) :
  B <> [] ->
  matches (map (fun p => nearest p B) A) t
  = (count_correct A B t, loc_err_sum A B t).
Proof.
  intros HB. unfold matches, vec_le, count_correct, loc_err_sum.
  rewrite select_map_filter, map_map, count_true_map, filter_map_shift.
  assert (E : filter (fun p => Rleb (nearest p B) t) A
              = filter (fun p => is_correct p B t) A).
  { apply filter_ext. intros p. now rewrite is_correct_nearest. }
  now rewrite E.
Qed.

Lemma count_correct_empty (A : list (list R)) (t : R) :
  count_correct A [] t = 0%nat /\ loc_err_sum A [] t = 0.
Proof.
  unfold count_correct, loc_err_sum.
  assert (E : filter (fun p => is_correct p [] t) A = []).
  { induction A as [|p A IH]; [reflexivity | exact IH]. }
  now rewrite E.
Qed.

Lemma count_correct_le (A B : list (list R)) (t : R) :
  (count_correct A B t <= length A)%nat.
Proof. apply filter_length_le. Qed.

Lemma loc_err_sum_nonneg (A B : list (list R)) (t : R) : 0 <= loc_err_sum A B t.
Proof.
  unfold loc_err_sum.
  induction (filter (fun p => is_correct p B t) A) as [|p l IH]; cbn; [lra|].
  pose proof (nearest_nonneg p B). unfold rsum in IH. lra.
Qed.

(** The code computes the statistics of the description. *)
Lemma repeatability_core_spec (A B : ndarray) (t : R) :
  ncols A = 2%nat -> ncols B = 2%nat ->
  repeatability_core A B t
  = Some (nrows A, nrows B,
          fst (repeatability_spec (rows A) (rows B) t),
          snd (repeatability_spec (rows A) (rows B) t)).
Proof.
  intros HA HB. unfold repeatability_core.
  rewrite norm_matrix_euclid by assumption. cbn [bind]. unfold nrows.
  assert (H1 : (if negb (length (rows B) =? 0)%nat
                then min1 <- min_axis1 (length (rows B))
                                (map (fun p => map (euclid p) (rows B)) (rows A)) ;;
                     Some (matches min1 t)
                else Some (0%nat, 0))
               = Some (count_correct (rows A) (rows B) t,
                       loc_err_sum (rows A) (rows B) t)).
  { destruct (rows B) as [|q bs] eqn:E.
    - cbn [length Nat.eqb negb].
      now destruct (count_correct_empty (rows A) t) as [-> ->].
    - cbn [length Nat.eqb negb].
      change (S (length bs)) with (length (q :: bs)).
      rewrite min_axis1_nearest by discriminate. cbn [bind].
      now rewrite matches_nearest by discriminate. }
  assert (H2 : (if negb (length (rows A) =? 0)%nat
                then min2 <- min_axis0 (length (rows A)) (length (rows B))
                                (map (fun p => map (euclid p) (rows B)) (rows A)) ;;
                     Some (matches min2 t)
                else Some (0%nat, 0))
               = Some (count_correct (rows B) (rows A) t,
                       loc_err_sum (rows B) (rows A) t)).
  { destruct (rows A) as [|p ps] eqn:E.
    - cbn [length Nat.eqb negb].
      now destruct (count_correct_empty (rows B) t) as [-> ->].
    - cbn [length Nat.eqb negb].
      change (S (length ps)) with (length (p :: ps)).
      rewrite min_axis0_nearest by discriminate. cbn [bind].
      now rewrite matches_nearest by discriminate. }
  rewrite H1. cbn [bind]. rewrite H2. cbn [bind].
  unfold repeatability_spec.
  set (c := (count_correct (rows A) (rows B) t
             + count_correct (rows B) (rows A) t)%nat).
  set (n := (length (rows A) + length (rows B))%nat).
  destruct (Nat.ltb_spec 0 n) as [Hn|Hn], (Nat.ltb_spec 0 c) as [Hc|Hc];
    destruct (Nat.eqb_spec n 0), (Nat.eqb_spec c 0); try lia; reflexivity.
Qed.

Lemma quotient_range (c n : nat) :
  (0 < c <= n)%nat -> 0 < INR c / INR n <= 1.
Proof.
  intros [Hc Hn].
  assert (Hc' : 0 < INR c) by (apply lt_0_INR; lia).
  assert (Hn' : 0 < INR n) by (apply lt_0_INR; lia).
  assert (Hcn : INR c <= INR n) by now apply le_INR.
  split; [now apply Rdiv_lt_0_compat|].
  apply Rmult_le_reg_r with (INR n); [exact Hn'|].
  unfold Rdiv. rewrite Rmult_assoc, Rinv_l by lra. lra.
Qed.

Lemma quotient_nonneg (x : R) (c : nat) : 0 <= x -> (0 < c)%nat -> 0 <= x / INR c.
Proof.
  intros Hx Hc. apply Rle_mult_inv_pos; [exact Hx|]. apply lt_0_INR; lia.
Qed.

(** Nothing matches when every point of [B] is farther than the threshold. *)
Lemma count_correct_far (A B : list (list R)) (t : R) :
  (forall p q, In p A -> In q B -> t < euclid p q) ->
  count_correct A B t = 0%nat.
Proof.
  intros Hfar. unfold count_correct.
  assert (E : filter (fun p => is_correct p B t) A = []).
  { induction A as [|p A IH]; [reflexivity|]. cbn.
    assert (Hp : is_correct p B t = false).
    { unfold is_correct. destruct (min_dist p B) as [m|] eqn:E; [|reflexivity].
      destruct (min_dist_nearest _ _ _ E) as [[q [Hq <-]] _].
      apply Rleb_false, Hfar; [now left | exact Hq]. }
    rewrite Hp. apply IH. intros; apply Hfar; [now right | assumption]. }
  now rewrite E.
Qed.

(** C1. On two sets of points of the plane, when at least one point has a
    nearest neighbour in the other set within the threshold, the code
    returns the two sizes, the repeatability
    [(count1 + count2) / (N1 + N2)] and the localization error
    [(le1 + le2) / (count1 + count2)], the counts and sums being those of
    the nearest-neighbour matches in each direction. *)
Theorem repeatability_formula (A B : ndarray) (distance_thresh : R) :
  ncols A = 2%nat ->
  ncols B = 2%nat ->
  let count1 := count_correct (rows A) (rows B) distance_thresh in
  let count2 := count_correct (rows B) (rows A) distance_thresh in
  let le1 := loc_err_sum (rows A) (rows B) distance_thresh in
  let le2 := loc_err_sum (rows B) (rows A) distance_thresh in
  (0 < count1 + count2)%nat ->
  repeatability_core A B distance_thresh
  = Some (nrows A, nrows B,
          INR (count1 + count2) / INR (nrows A + nrows B),
          (le1 + le2) / INR (count1 + count2)).
Proof.
  intros HA HB. cbv zeta. intros Hc.
  rewrite repeatability_core_spec by assumption.
  unfold repeatability_spec, nrows.
  pose proof (count_correct_le (rows A) (rows B) distance_thresh).
  pose proof (count_correct_le (rows B) (rows A) distance_thresh).
  destruct (Nat.eqb_spec (length (rows A) + length (rows B)) 0); [lia|].
  destruct (Nat.eqb_spec (count_correct (rows A) (rows B) distance_thresh
                          + count_correct (rows B) (rows A) distance_thresh) 0);
    [lia|].
  reflexivity.
Qed.

(** C2. The code returns the sentinel [-1], for the repeatability and for
    the localization error, exactly when both sets are empty or no point
    has a nearest neighbour within the threshold; two sets whose points
    are all farther apart than the threshold give [(-1, -1)]. *)
Theorem repeatability_sentinel (A B : ndarray) (distance_thresh : R) :
  ncols A = 2%nat ->
  ncols B = 2%nat ->
  let count1 := count_correct (rows A) (rows B) distance_thresh in
  let count2 := count_correct (rows B) (rows A) distance_thresh in
  let degenerate := (nrows A = 0 /\ nrows B = 0 \/ count1 + count2 = 0)%nat in
  exists repeatability loc_err,
    repeatability_core A B distance_thresh
    = Some (nrows A, nrows B, repeatability, loc_err)
    /\ (repeatability = -1 <-> degenerate)
    /\ (loc_err = -1 <-> degenerate)
    /\ ((forall p q, In p (rows A) -> In q (rows B) ->
                     distance_thresh < euclid p q) ->
        repeatability = -1 /\ loc_err = -1).
Proof.
  intros HA HB. cbv zeta.
  rewrite repeatability_core_spec by assumption.
  do 2 eexists. split; [reflexivity|].
  unfold repeatability_spec, nrows.
  pose proof (count_correct_le (rows A) (rows B) distance_thresh) as L1.
  pose proof (count_correct_le (rows B) (rows A) distance_thresh) as L2.
  pose proof (loc_err_sum_nonneg (rows A) (rows B) distance_thresh) as P1.
  pose proof (loc_err_sum_nonneg (rows B) (rows A) distance_thresh) as P2.
  set (count1 := count_correct (rows A) (rows B) distance_thresh) in *.
  set (count2 := count_correct (rows B) (rows A) distance_thresh) in *.
  destruct (Nat.eqb_spec (length (rows A) + length (rows B)) 0) as [Hn|Hn];
    [|destruct (Nat.eqb_spec (count1 + count2) 0) as [Hc|Hc]];
    cbn [orb fst snd].
  - repeat split; auto; intros; left; lia.
  - repeat split; auto.
  - assert (Hq : 0 < INR (count1 + count2)
                     / INR (length (rows A) + length (rows B)) <= 1)
      by (apply quotient_range; lia).
    assert (Hl : 0 <= (loc_err_sum (rows A) (rows B) distance_thresh
                       + loc_err_sum (rows B) (rows A) distance_thresh)
                      / INR (count1 + count2))
      by (apply quotient_nonneg; [lra | lia]).
    split; [|split].
    + split; [lra | lia].
    + split; [lra | lia].
    + intros Hfar. exfalso. apply Hc. subst count1 count2.
      rewrite !count_correct_far; [reflexivity | | exact Hfar].
      intros p q Hp Hq'. rewrite euclid_sym. now apply Hfar.
Qed.

(** On every pair of sets the repeatability is [-1] or lies in [[0, 1]],
    and the localization error is [-1] or is not negative: no direction
    counts more matches than it has points, and no distance summed is
    negative. *)
Lemma repeatability_core_range (A B : ndarray) (distance_thresh : R) :
  ncols A = 2%nat ->
  ncols B = 2%nat ->
  exists repeatability loc_err,
    repeatability_core A B distance_thresh
    = Some (nrows A, nrows B, repeatability, loc_err)
    /\ (repeatability = -1 \/ 0 <= repeatability <= 1)
    /\ (loc_err = -1 \/ 0 <= loc_err)
    /\ (count_correct (rows A) (rows B) distance_thresh <= nrows A)%nat
    /\ (count_correct (rows B) (rows A) distance_thresh <= nrows B)%nat
    /\ 0 <= loc_err_sum (rows A) (rows B) distance_thresh
    /\ 0 <= loc_err_sum (rows B) (rows A) distance_thresh.
Proof.
  intros HA HB. rewrite repeatability_core_spec by assumption.
  do 2 eexists. split; [reflexivity|].
  pose proof (count_correct_le (rows A) (rows B) distance_thresh) as L1.
  pose proof (count_correct_le (rows B) (rows A) distance_thresh) as L2.
  pose proof (loc_err_sum_nonneg (rows A) (rows B) distance_thresh) as P1.
  pose proof (loc_err_sum_nonneg (rows B) (rows A) distance_thresh) as P2.
  unfold repeatability_spec, nrows.
  destruct (Nat.eqb_spec (length (rows A) + length (rows B)) 0) as [Hn|Hn];
    [|destruct (Nat.eqb_spec
                  (count_correct (rows A) (rows B) distance_thresh
                   + count_correct (rows B) (rows A) distance_thresh) 0)
        as [Hc|Hc]];
    cbn [orb fst snd]; repeat split; auto.
  - right.
    assert (Hq : 0 < INR (count_correct (rows A) (rows B) distance_thresh
                          + count_correct (rows B) (rows A) distance_thresh)
                     / INR (length (rows A) + length (rows B)) <= 1)
      by (apply quotient_range; lia).
    lra.
  - right. apply quotient_nonneg; [lra | lia].
Qed.

Lemma euclid_refl (p : list R) : euclid p p = 0.
Proof.
  unfold euclid. etransitivity; [|apply sqrt_0]. f_equal. ring.
Qed.

(** *** A set against a copy of itself *)

Lemma nearest_member (p : list R) (B : list (list R)) :
  In p B -> nearest p B = 0.
Proof.
  intros Hp. assert (HB : B <> []) by (intros ->; contradiction).
  pose proof (min_dist_some p B HB) as E.
  destruct (min_dist_nearest _ _ _ E) as [_ Hmin].
  specialize (Hmin p Hp). rewrite euclid_refl in Hmin.
  pose proof (nearest_nonneg p B). lra.
Qed.

Lemma matches_of_members (A B : list (list R)) (t : R) :
  0 <= t ->
  (forall p, In p A -> In p B) ->
  count_correct A B t = length A /\ loc_err_sum A B t = 0.
Proof.
  intros Ht Hsub. unfold count_correct, loc_err_sum.
  assert (E : filter (fun p => is_correct p B t) A = A).
  { induction A as [|p A IH]; [reflexivity|]. cbn [filter].
    assert (Hp : is_correct p B t = true).
    { unfold is_correct.
      assert (HB : B <> [])
        by (intros ->; apply (Hsub p); now left).
      rewrite (min_dist_some p B HB), nearest_member by (apply Hsub; now left).
      now apply Rleb_true. }
    rewrite Hp. f_equal. apply IH. intros; apply Hsub; now right. }
  rewrite E. split; [reflexivity|].
  clear E. induction A as [|p A IH]; [reflexivity|].
  cbn [map rsum fold_right]. rewrite nearest_member by (apply Hsub; now left).
  unfold rsum in IH. rewrite IH; [lra|]. intros; apply Hsub; now right.
Qed.

(** Perfect repeatability: a non-empty set against an exact copy has
    repeatability 1 and localization error 0. *)
Lemma repeatability_of_copy (A : ndarray) (t : R) :
  ncols A = 2%nat -> rows A <> [] -> 0 <= t ->
  repeatability_core A A t = Some (nrows A, nrows A, 1, 0).
Proof.
  intros Hc Hne Ht. rewrite repeatability_core_spec by assumption.
  unfold repeatability_spec, nrows.
  destruct (matches_of_members (rows A) (rows A) t Ht (fun p H => H)) as [-> ->].
  assert (Hlen : (0 < length (rows A))%nat)
    by (destruct (rows A); [contradiction | cbn; lia]).
  destruct (Nat.eqb_spec (length (rows A) + length (rows A)) 0); [lia|].
  cbn [orb fst snd]. f_equal. f_equal; [f_equal|].
  - apply Rinv_r. apply not_0_INR. lia.
  - unfold Rdiv. lra.
Qed.

Lemma repeatability_sentinel_witness :
  exists repeatability loc_err,
    repeatability_core (mk_ndarray 2 []) (mk_ndarray 2 [[1; 2]]) 3
    = Some (0%nat, 1%nat, repeatability, loc_err)
    /\ repeatability = -1 /\ loc_err = -1.
Proof.
  destruct (repeatability_sentinel (mk_ndarray 2 []) (mk_ndarray 2 [[1; 2]]) 3)
    as [rep [le [H [_ [_ Hfar]]]]]; [reflexivity | reflexivity |].
  exists rep, le. split; [exact H|]. apply Hfar. intros p q [].
Defined.

(** ** The sonar geometry *)

Lemma half_angle (t : R) :
  - PI < t < PI -> 2 * atan (sin t / (1 + cos t)) = t.
Proof.
  intros Ht.
  assert (Hc : 0 < cos (t / 2)) by (apply cos_gt_0; lra).
  replace t with (2 * (t / 2)) at 1 2 by lra.
  rewrite sin_2a, cos_2a_cos.
  replace (2 * sin (t / 2) * cos (t / 2) / (1 + (2 * cos (t / 2) * cos (t / 2) - 1)))
    with (tan (t / 2)) by (unfold tan; field; split; nra).
  rewrite atan_tan by lra. lra.
Qed.

Lemma angle_from_y_polar (rho t : R) :
  0 < rho -> - PI < t < PI ->
  sqrt (rho * sin t * (rho * sin t) + rho * cos t * (rho * cos t)) = rho
  /\ angle_from_y (rho * sin t) (rho * cos t) = t.
Proof.
  intros Hrho Ht.
  assert (Hs : sqrt (rho * sin t * (rho * sin t) + rho * cos t * (rho * cos t))
               = rho).
  { replace (rho * sin t * (rho * sin t) + rho * cos t * (rho * cos t))
      with (rho * rho * (Rsqr (sin t) + Rsqr (cos t))) by (unfold Rsqr; ring).
    rewrite sin2_cos2, Rmult_1_r. apply sqrt_square. lra. }
  split; [exact Hs|].
  unfold angle_from_y. rewrite Hs.
  assert (Hc : -1 < cos t).
  { destruct (Rle_lt_dec (cos t) (-1)) as [Hle|]; [|assumption]. exfalso.
    assert (Hh : 0 < cos (t / 2)) by (apply cos_gt_0; lra).
    assert (E : cos t = 2 * cos (t / 2) * cos (t / 2) - 1).
    { replace t with (2 * (t / 2)) at 1 by lra. apply cos_2a_cos. }
    nra. }
  replace (rho * sin t / (rho + rho * cos t)) with (sin t / (1 + cos t))
    by (field; repeat split; nra).
  now apply half_angle.
Qed.

Lemma angle_of_range (cfg : sonar_config) (b : R) :
  open_aperture cfg -> 0 <= b <= 1 -> - PI < angle_of cfg b < PI.
Proof.
  intros Hf Hb. unfold angle_of. pose proof PI_RGT_0 as Hpi.
  unfold open_aperture, Rabs in Hf.
  destruct (Rcase_abs (fov cfg)) as [Hneg|Hpos].
  - assert (H1 : - (2 * PI) < fov cfg * PI / 180 < 0) by (split; nra).
    split; nra.
  - assert (H1 : 0 < fov cfg * PI / 180 < 2 * PI) by (split; nra).
    split; nra.
Qed.

Lemma open_aperture_nonzero (cfg : sonar_config) :
  open_aperture cfg -> fov cfg <> 0.
Proof.
  unfold open_aperture. intros [H _] E. rewrite E, Rabs_R0 in H. lra.
Qed.


(** The round trip on one point that is not at the sensor itself. *)
Lemma cartesian_to_polar_to_cartesian (cfg : sonar_config) (p : R * R) :
  valid_config cfg -> open_aperture cfg ->
  in_domain p -> 0 < range_of cfg (fst p) ->
  cartesian_to_polar cfg (polar_to_cartesian cfg p) = p.
Proof.
  intros Hr Hf [Hp1 Hp2] Hrho. destruct p as [r b]. cbn [fst snd] in *.
  pose proof (angle_of_range cfg b Hf Hp2) as Ht.
  pose proof (open_aperture_nonzero cfg Hf) as Hf0.
  destruct (angle_from_y_polar _ _ Hrho Ht) as [Hs Ha].
  unfold cartesian_to_polar, polar_to_cartesian. cbn [fst snd].
  rewrite Hs, Ha. pose proof PI_RGT_0 as Hpi. unfold valid_config in Hr.
  f_equal.
  - unfold range_of. field. lra.
  - unfold angle_of. field. split; [lra | exact Hf0].
Qed.


(** A closed aperture sends every bearing to the same direction. *)
Lemma closed_aperture_loses_bearing (cfg : sonar_config) (r b1 b2 : R) :
  fov cfg = 0 ->
  polar_to_cartesian cfg (r, b1) = polar_to_cartesian cfg (r, b2).
Proof.
  intros H0. unfold polar_to_cartesian, angle_of. cbn [fst snd].
  rewrite H0. do 2 f_equal; f_equal; unfold Rdiv; ring.
Qed.

(** An aperture of a full turn or more wraps around: the bearing fractions
    [0] and [360 / |fov|], both in [[0, 1]] and different, go to the same
    point. *)
Lemma full_turn_loses_bearing (cfg : sonar_config) (r : R) :
  360 <= Rabs (fov cfg) ->
  0 < 360 / Rabs (fov cfg) <= 1
  /\ polar_to_cartesian cfg (r, 0)
     = polar_to_cartesian cfg (r, 360 / Rabs (fov cfg)).
Proof.
  intros Hf. pose proof PI_RGT_0 as Hpi.
  assert (Hpos : 0 < Rabs (fov cfg)) by lra.
  split.
  - split.
    + apply Rdiv_lt_0_compat; lra.
    + apply Rmult_le_reg_r with (Rabs (fov cfg)); [exact Hpos|].
      unfold Rdiv. rewrite Rmult_assoc, Rinv_l by lra. lra.
  - unfold polar_to_cartesian, angle_of. cbn [fst snd].
    unfold Rabs in *. destruct (Rcase_abs (fov cfg)) as [Hneg|Hnn].
    + replace ((360 / - fov cfg - 1 / 2) * (fov cfg * PI / 180))
        with ((0 - 1 / 2) * (fov cfg * PI / 180) - 2 * PI) by (field; lra).
      rewrite sin_minus, cos_minus, sin_2PI, cos_2PI. f_equal; ring.
    + replace ((360 / fov cfg - 1 / 2) * (fov cfg * PI / 180))
        with ((0 - 1 / 2) * (fov cfg * PI / 180) + 2 * PI) by (field; lra).
      rewrite sin_plus, cos_plus, sin_2PI, cos_2PI. f_equal; ring.
Qed.





(** ** The whole computation *)

Lemma select_k_best_ncols {AS : ArgSort} (S U : ndarray) (k : Z) :
  select_k_best S k = Some U -> ncols U = 2%nat.
Proof.
  unfold select_k_best, col, fancy_index.
  destruct (Nat.ltb_spec 2 (ncols S)); [|discriminate]. cbn [bind].
  destruct (forallb _ _); [|discriminate]. cbn [bind].
  intros E. injection E as <-. unfold rows_from, cols_upto. cbn [ncols]. lia.
Qed.

(** C8. Whatever the input, when [compute_repeatability_sonar] returns, the
    repeatability is the sentinel [-1] or lies in [[0, 1]], and the
    localization error is the sentinel [-1] or is not negative; for no
    direction counts more matches than it has points, and no sum of
    distances is negative. *)
Theorem repeatability_range {AS : ArgSort} (data : sample) (keep_k_points : Z)
    (distance_thresh : R) (N1 N2 : nat) (repeatability loc_err : R) :
  compute_repeatability_sonar data keep_k_points distance_thresh
  = Some (N1, N2, repeatability, loc_err) ->
  (repeatability = -1 \/ 0 <= repeatability <= 1)
  /\ (loc_err = -1 \/ 0 <= loc_err)
  /\ (forall A B : list (list R),
        (count_correct A B distance_thresh <= length A)%nat
        /\ 0 <= loc_err_sum A B distance_thresh).
Proof.
  unfold compute_repeatability_sonar. intros E.
  repeat match type of E with
         | bind ?m _ = Some _ =>
             let x := fresh "x" in
             let Ex := fresh "Ex" in
             destruct m as [x|] eqn:Ex; [cbn [bind] in E | discriminate E]
         end.
  match goal with
  | E1 : select_k_best _ _ = Some ?w, E2 : select_k_best _ _ = Some ?t |- _ =>
      destruct (repeatability_core_range t w distance_thresh
                  (select_k_best_ncols _ _ _ E2) (select_k_best_ncols _ _ _ E1))
        as [rep [le [Hcore [Hrep [Hle _]]]]]
  end.
  rewrite Hcore in E. injection E as _ _ <- <-.
  split; [exact Hrep|]. split; [exact Hle|].
  intros A B. split; [apply count_correct_le | apply loc_err_sum_nonneg].
Qed.

(** *** The computation returns

    With three columns in both inputs and a homography that has an inverse
    no step raises: empty sets and sets without a match come out as the
    sentinel. *)

Lemma col_shape (j : nat) (a : ndarray) :
  (j < ncols a)%nat -> exists v, col j a = Some v /\ length v = nrows a.
Proof.
  intros Hj. unfold col. destruct (Nat.ltb_spec j (ncols a)); [|lia].
  eexists. split; [reflexivity|]. apply length_map.
Qed.

Lemma arr_op_shape (op : R -> R -> R) (kp : ndarray) (v : list R) :
  ncols kp = length v ->
  exists n, arr_op op kp v = Some n /\ ncols n = ncols kp /\ nrows n = nrows kp.
Proof.
  intros Hc. rewrite arr_op_same by assumption. eexists. split; [reflexivity|].
  split; [reflexivity|]. apply length_map.
Qed.

Lemma normalize_shape (kp : ndarray) (f a : list R) :
  ncols kp = length f -> length a = length f ->
  exists n, normalize_keypoints kp f a = Some n
            /\ ncols n = ncols kp /\ nrows n = nrows kp.
Proof.
  intros Hf Ha. unfold normalize_keypoints.
  rewrite arr_op_twice by assumption. eexists. split; [reflexivity|].
  split; [reflexivity|]. apply length_map.
Qed.

Lemma unnormalize_shape (kp : ndarray) (f a : list R) :
  ncols kp = length f -> length a = length f ->
  exists n, unnormalize_keypoints kp f a = Some n
            /\ ncols n = ncols kp /\ nrows n = nrows kp.
Proof.
  intros Hf Ha. unfold unnormalize_keypoints.
  rewrite arr_op_twice by congruence. eexists. split; [reflexivity|].
  split; [reflexivity|]. apply length_map.
Qed.

Lemma on_points_shape (g : R * R -> R * R) (a : ndarray) :
  (2 <= ncols a)%nat ->
  exists b, on_points g a = Some b /\ ncols b = ncols a /\ nrows b = nrows a.
Proof.
  intros Hc. unfold on_points. destruct (Nat.leb_spec 2 (ncols a)); [|lia].
  eexists. split; [reflexivity|]. split; [reflexivity|]. apply length_map.
Qed.

Lemma warp_keypoints_shape (kp : ndarray) (H : list (list R)) :
  (2 <= ncols kp)%nat ->
  exists b, warp_keypoints kp H = Some b /\ ncols b = 2%nat /\ nrows b = nrows kp.
Proof.
  intros Hc. unfold warp_keypoints. destruct (Nat.leb_spec 2 (ncols kp)); [|lia].
  eexists. split; [reflexivity|]. split; [reflexivity|]. apply length_map.
Qed.

Lemma zip3_length (v0 v1 v2 : list R) :
  length v0 = length v1 -> length v1 = length v2 ->
  length (zip3 v0 v1 v2) = length v0.
Proof.
  revert v1 v2. induction v0 as [|x v0 IH]; intros [|y v1] [|z v2] H1 H2;
    try discriminate; [reflexivity|].
  cbn. f_equal. apply IH; cbn in *; lia.
Qed.

Lemma stack3_shape (v0 v1 v2 : list R) :
  length v0 = length v1 -> length v1 = length v2 ->
  exists b, stack3 v0 v1 v2 = Some b /\ ncols b = 3%nat /\ nrows b = length v0.
Proof.
  intros H1 H2. unfold stack3. rewrite H1, H2, !Nat.eqb_refl. cbn [andb].
  eexists. split; [reflexivity|]. split; [reflexivity|].
  unfold nrows. cbn [rows]. rewrite zip3_length; congruence.
Qed.

Lemma overwrite_length (c : nat) (rs us : list (list R)) :
  length us = length rs -> length (overwrite c rs us) = length rs.
Proof.
  revert us. induction rs as [|r rs IH]; intros [|u us] H; try discriminate;
    [reflexivity|].
  cbn. f_equal. apply IH. cbn in H. lia.
Qed.

Lemma assign_cols_upto_shape (c : nat) (a u : ndarray) :
  nrows u = nrows a -> ncols u = Nat.min c (ncols a) ->
  exists b, assign_cols_upto c a u = Some b
            /\ ncols b = ncols a /\ nrows b = nrows a.
Proof.
  intros Hn Hc. unfold assign_cols_upto. rewrite Hn, Hc, !Nat.eqb_refl.
  cbn [andb]. eexists. split; [reflexivity|]. split; [reflexivity|].
  now apply overwrite_length.
Qed.

Lemma project_shape (cfg : sonar_config) (f a : list R) (H : list (list R))
    (scored : ndarray) :
  length f = 2%nat -> length a = 2%nat -> (3 <= ncols scored)%nat ->
  exists P, project cfg f a H scored = Some P
            /\ ncols P = 3%nat /\ nrows P = nrows scored.
Proof.
  intros Hf Ha Hc. unfold project.
  assert (Hc2 : ncols (cols_upto 2 scored) = 2%nat) by (cbn [cols_upto ncols]; lia).
  assert (Hn2 : nrows (cols_upto 2 scored) = nrows scored) by apply length_map.
  destruct (normalize_shape (cols_upto 2 scored) f a) as [n [-> [Hnc Hnn]]];
    [congruence | congruence |]. cbn [bind].
  destruct (on_points_shape (polar_to_cartesian cfg) n) as [p [Ep [Hpc Hpn]]];
    [lia|]. unfold pol_2_cart. rewrite Ep. cbn [bind].
  destruct (warp_keypoints_shape p H) as [w [-> [Hwc Hwn]]]; [lia|]. cbn [bind].
  destruct (col_shape 0 w) as [c0 [-> H0]]; [lia|]. cbn [bind].
  destruct (col_shape 1 w) as [c1 [-> H1]]; [lia|]. cbn [bind].
  destruct (col_shape 2 scored) as [c2 [-> H2]]; [lia|]. cbn [bind].
  destruct (stack3_shape c0 c1 c2) as [s [-> [Hsc Hsn]]]; [congruence | congruence |].
  cbn [bind].
  destruct (on_points_shape (cartesian_to_polar cfg) s) as [q [Eq [Hqc Hqn]]];
    [lia|]. unfold cart_2_pol. rewrite Eq. cbn [bind].
  assert (Hq2 : ncols (cols_upto 2 q) = 2%nat) by (cbn [cols_upto ncols]; lia).
  assert (Hqn2 : nrows (cols_upto 2 q) = nrows q) by apply length_map.
  destruct (unnormalize_shape (cols_upto 2 q) f a) as [u [-> [Huc Hun]]];
    [congruence | congruence |]. cbn [bind].
  destruct (assign_cols_upto_shape 2 q u) as [b [-> [Hbc Hbn]]];
    [congruence | lia |].
  exists b. split; [reflexivity|]. split; congruence.
Qed.

Lemma linalg_inv_regular (H : list (list R)) :
  det3 H <> 0 -> exists H_inv, linalg_inv H = Some H_inv.
Proof.
  intros Hd. unfold linalg_inv. destruct (Req_dec_T (det3 H) 0); [contradiction|].
  eexists. reflexivity.
Qed.

Lemma compute_repeatability_sonar_returns {AS : ArgSort} {Hok : ArgSortOk AS}
    (data : sample) (keep_k_points : Z) (distance_thresh : R) :
  (3 <= ncols (prob data))%nat ->
  (3 <= ncols (warped_prob data))%nat ->
  det3 (homography data) <> 0 ->
  exists N1 N2 repeatability loc_err,
    compute_repeatability_sonar data keep_k_points distance_thresh
    = Some (N1, N2, repeatability, loc_err).
Proof.
  intros Hp Hw Hd. unfold compute_repeatability_sonar.
  destruct (project_shape (sonar_cfg data)
              [IZR (fst (image_shape data)) / 2; IZR (snd (image_shape data)) / 2]
              [1; 1] (homography data) (warped_prob data))
    as [ckw [-> [Hcc Hcn]]]; auto. cbn [bind].
  destruct (keep_true_keypoints_by_rows (warped_prob data) ckw (image_shape data))
    as [wk [-> Hwk]]; [congruence | lia |]. cbn [bind].
  destruct (linalg_inv_regular _ Hd) as [H_inv ->]. cbn [bind].
  destruct (project_shape (sonar_cfg data)
              [IZR (fst (image_shape data)) / 2; IZR (snd (image_shape data)) / 2]
              [1; 1] H_inv (prob data))
    as [twk [-> [Htc Htn]]]; auto. cbn [bind].
  destruct (keep_true_keypoints_by_rows twk twk (image_shape data))
    as [twk' [Et Htwk']]; [reflexivity | lia |].
  change (keep_true_keypoints twk twk (image_shape data))
    with (filter_keypoints twk (image_shape data)) in Et.
  rewrite Et. cbn [bind].
  rewrite (select_k_best_eq wk) by lia. cbn [bind].
  rewrite (select_k_best_eq twk') by lia. cbn [bind].
  rewrite repeatability_core_spec by reflexivity.
  do 4 eexists. reflexivity.
Qed.

(** ** Where the re-selection needs its conditions *)

Lemma insertion_argsort_stable : ArgSortStable insertion_argsort.
Proof. intros v. reflexivity. Qed.

(** A negative [k] drops rows from the front at every selection. *)
Lemma reselect_negative_k :
  let S := mk_ndarray 3 [[1; 1; 0.1]; [2; 2; 0.2]; [3; 3; 0.3]] in
  let T := mk_ndarray 3 [[2; 2; 0.2]; [3; 3; 0.3]] in
  @scored_selection insertion_argsort S (-1) = Some T
  /\ @select_k_best insertion_argsort S (-1) = Some (mk_ndarray 2 [[2; 2]; [3; 3]])
  /\ @select_k_best insertion_argsort T (-1) = Some (mk_ndarray 2 [[3; 3]]).
Proof.
  intros S T. subst S T.
  unfold scored_selection, select_k_best, argsort, insertion_argsort.
  repeat split; rcompute; reflexivity.
Qed.

(** With equal confidences a sort that is not stable may order the rows
    kept differently the second time. *)
Lemma reselect_ties_open :
  let S := mk_ndarray 3 [[1; 1; 0.5]; [2; 2; 0.5]] in
  let T := mk_ndarray 3 [[2; 2; 0.5]; [1; 1; 0.5]] in
  @scored_selection reversing_argsort S 2 = Some T
  /\ @select_k_best reversing_argsort S 2 = Some (mk_ndarray 2 [[2; 2]; [1; 1]])
  /\ @select_k_best reversing_argsort T 2 = Some (mk_ndarray 2 [[1; 1]; [2; 2]]).
Proof.
  intros S T. subst S T.
  unfold scored_selection, select_k_best, argsort, reversing_argsort.
  repeat split; rcompute; reflexivity.
Qed.

(** ** The scenario of the description

    [A = [(0, 0, 0.9), (10, 10, 0.5)]], [B = [(0, 0, 0.8), (10, 11, 0.9)]],
    threshold 3, [k = 2]: every point matches, at distances 0 and 1. *)

Lemma euclid_value (p q : list R) (d : R) :
  0 <= d ->
  (nth 0 p 0 - nth 0 q 0) * (nth 0 p 0 - nth 0 q 0)
  + (nth 1 p 0 - nth 1 q 0) * (nth 1 p 0 - nth 1 q 0) = d * d ->
  euclid p q = d.
Proof. intros Hd E. unfold euclid. rewrite E. now apply sqrt_square. Qed.

Lemma euclid_at_least (p q : list R) (d : R) :
  0 <= d ->
  d * d <= (nth 0 p 0 - nth 0 q 0) * (nth 0 p 0 - nth 0 q 0)
           + (nth 1 p 0 - nth 1 q 0) * (nth 1 p 0 - nth 1 q 0) ->
  d <= euclid p q.
Proof.
  intros Hd E. unfold euclid. rewrite <- (sqrt_square d Hd) at 1.
  apply sqrt_le_1_alt. exact E.
Qed.

Lemma scenario_selection :
  @select_k_best insertion_argsort
    (mk_ndarray 3 [[0; 0; 0.9]; [10; 10; 0.5]]) 2
  = Some (mk_ndarray 2 [[10; 10]; [0; 0]])
  /\ @select_k_best insertion_argsort
       (mk_ndarray 3 [[0; 0; 0.8]; [10; 11; 0.9]]) 2
     = Some (mk_ndarray 2 [[0; 0]; [10; 11]]).
Proof.
  unfold select_k_best, argsort, insertion_argsort.
  split; rcompute; reflexivity.
Qed.

Lemma scenario_counts :
  let A := [[10; 10]; [0; 0]] in
  let B := [[0; 0]; [10; 11]] in
  count_correct A B 3 = 2%nat /\ count_correct B A 3 = 2%nat
  /\ loc_err_sum A B 3 = 1 /\ loc_err_sum B A 3 = 1.
Proof.
  assert (E1 : euclid [10; 10] [10; 11] = 1)
    by (apply euclid_value; cbn; lra).
  assert (E2 : 1 <= euclid [10; 10] [0; 0])
    by (apply euclid_at_least; cbn; lra).
  assert (E3 : euclid [0; 0] [0; 0] = 0) by apply euclid_refl.
  assert (E4 : 1 <= euclid [0; 0] [10; 11])
    by (apply euclid_at_least; cbn; lra).
  assert (N1 : min_dist [10; 10] [[0; 0]; [10; 11]] = Some 1).
  { cbn [min_dist]. rewrite E1. now rewrite Rmin_right. }
  assert (N2 : min_dist [0; 0] [[0; 0]; [10; 11]] = Some 0).
  { cbn [min_dist]. rewrite E3. rewrite Rmin_left; [reflexivity | lra]. }
  assert (N3 : min_dist [0; 0] [[10; 10]; [0; 0]] = Some 0).
  { cbn [min_dist]. rewrite E3, (euclid_sym [0; 0] [10; 10]).
    rewrite Rmin_right; [reflexivity | lra]. }
  assert (N4 : min_dist [10; 11] [[10; 10]; [0; 0]] = Some 1).
  { cbn [min_dist]. rewrite (euclid_sym [10; 11] [10; 10]), E1.
    rewrite (euclid_sym [10; 11] [0; 0]). now rewrite Rmin_left. }
  intros A B. subst A B.
  unfold count_correct, loc_err_sum, is_correct, nearest.
  cbn [filter]. rewrite N1, N2, N3, N4. unfold Rleb. rcmp.
  cbn [filter map length rsum fold_right]. rewrite N1, N2, N3, N4.
  repeat split; lra.
Qed.

(** The repeatability is 1 and the localization error 0.5. *)
Lemma repeatability_formula_witness :
  repeatability_core (mk_ndarray 2 [[10; 10]; [0; 0]])
                     (mk_ndarray 2 [[0; 0]; [10; 11]]) 3
  = Some (2%nat, 2%nat, 1, 1 / 2).
Proof.
  destruct scenario_counts as [C1 [C2 [L1 L2]]].
  rewrite (repeatability_formula (mk_ndarray 2 [[10; 10]; [0; 0]])
             (mk_ndarray 2 [[0; 0]; [10; 11]]) 3);
    [| reflexivity | reflexivity | cbn [rows]; rewrite C1, C2; lia].
  cbn [rows nrows length]. rewrite C1, C2, L1, L2. cbn [Nat.add INR].
  f_equal. f_equal; [f_equal|]; lra.
Defined.

(** ** One pair of images end to end

    One keypoint at [(3, 3)] in each image of shape [(4, 4)], the identity
    homography: the point goes through the sonar geometry and back, stays
    in bounds, and matches itself. *)

Lemma project_identity_example (c : R) :
  project (mk_sonar_config 90 1 5) [IZR 4 / 2; IZR 4 / 2] [1; 1]
          [[1; 0; 0]; [0; 1; 0]; [0; 0; 1]] (mk_ndarray 3 [[3; 3; c]])
  = Some (mk_ndarray 3 [[3; 3; c]]).
Proof.
  unfold project, normalize_keypoints, unnormalize_keypoints, arr_op, pol_2_cart,
    cart_2_pol, on_points, warp_keypoints, stack3, assign_cols_upto, col, entry.
  cbn -[cartesian_to_polar polar_to_cartesian].
  set (cfg := mk_sonar_config 90 1 5).
  set (p := (3 / (4 / 2) - 1, 3 / (4 / 2) - 1)).
  set (X := fst (polar_to_cartesian cfg p)).
  set (Y := snd (polar_to_cartesian cfg p)).
  replace ((1 * X + 0 * Y + 0) / (0 * X + 0 * Y + 1)) with X by (field; lra).
  replace ((0 * X + 1 * Y + 0) / (0 * X + 0 * Y + 1)) with Y by (field; lra).
  subst X Y. rewrite <- surjective_pairing.
  rewrite cartesian_to_polar_to_cartesian.
  - subst p. cbn [fst snd]. do 3 f_equal. f_equal; [lra|]. f_equal. lra.
  - unfold valid_config, cfg. cbn. lra.
  - unfold open_aperture, cfg. cbn. rewrite Rabs_pos_eq; lra.
  - unfold in_domain, p. cbn [fst snd]. lra.
  - unfold range_of, p, cfg. cbn. lra.
Qed.

Lemma end_to_end_example :
  @compute_repeatability_sonar insertion_argsort
    (mk_sample (4, 4)%Z [[1; 0; 0]; [0; 1; 0]; [0; 0; 1]]
       (mk_ndarray 3 [[3; 3; 0.9]]) (mk_ndarray 3 [[3; 3; 0.8]])
       (mk_sonar_config 90 1 5))
    300 3
  = Some (1%nat, 1%nat, 1, 0).
Proof.
  unfold compute_repeatability_sonar.
  cbn [homography image_shape sonar_cfg prob warped_prob fst snd].
  rewrite project_identity_example. cbn [bind].
  assert (Hk : forall c,
             keep_true_keypoints (mk_ndarray 3 [[3; 3; c]])
               (mk_ndarray 3 [[3; 3; c]]) (4, 4)%Z
             = Some (mk_ndarray 3 [[3; 3; c]])).
  { intros c. unfold keep_true_keypoints, bounds_mask, col, bool_index.
    rcompute. reflexivity. }
  rewrite Hk. cbn [bind].
  assert (Hinv : linalg_inv [[1; 0; 0]; [0; 1; 0]; [0; 0; 1]]
                 = Some [[1; 0; 0]; [0; 1; 0]; [0; 0; 1]]).
  { unfold linalg_inv, det3, entry. cbn [nth].
    destruct (Req_dec_T _ _) as [E|_]; [exfalso; lra|].
    repeat (f_equal; try (field; lra)). }
  rewrite Hinv. cbn [bind]. rewrite project_identity_example. cbn [bind].
  change (filter_keypoints (mk_ndarray 3 [[3; 3; 0.9]]) (4, 4)%Z)
    with (keep_true_keypoints (mk_ndarray 3 [[3; 3; 0.9]])
            (mk_ndarray 3 [[3; 3; 0.9]]) (4, 4)%Z).
  rewrite Hk. cbn [bind].
  assert (Hs : forall c,
             @select_k_best insertion_argsort (mk_ndarray 3 [[3; 3; c]]) 300
             = Some (mk_ndarray 2 [[3; 3]])) by reflexivity.
  rewrite !Hs. cbn [bind].
  apply (repeatability_of_copy (mk_ndarray 2 [[3; 3]]) 3);
    [reflexivity | discriminate | lra].
Qed.

Lemma repeatability_range_witness :
  @compute_repeatability_sonar insertion_argsort
    (mk_sample (4, 4)%Z [[1; 0; 0]; [0; 1; 0]; [0; 0; 1]]
       (mk_ndarray 3 [[3; 3; 0.9]]) (mk_ndarray 3 [[3; 3; 0.8]])
       (mk_sonar_config 90 1 5))
    300 3
  = Some (1%nat, 1%nat, 1, 0)
  /\ (1 = -1 \/ 0 <= 1 <= 1) /\ (0 = -1 \/ 0 <= 0).
Proof.
  split; [exact end_to_end_example|].
  destruct (@repeatability_range insertion_argsort _ 300 3 1%nat 1%nat 1 0
              end_to_end_example) as [Hrep [Hle _]].
  split; [exact Hrep | exact Hle].
Defined.

(** * Further properties of the code *)

(** ** The correspondence statistics at the edges *)

(** The scenario of the description, read off the statistics. *)
Lemma scenario_core :
  repeatability_core (mk_ndarray 2 [[10; 10]; [0; 0]])
                     (mk_ndarray 2 [[0; 0]; [10; 11]]) 3
  = Some (2%nat, 2%nat, 1, 1 / 2).
Proof.
  destruct scenario_counts as [C1 [C2 [L1 L2]]].
  rewrite repeatability_core_spec by reflexivity.
  unfold repeatability_spec. cbn [rows nrows length].
  rewrite C1, C2, L1, L2. cbn [Nat.add Nat.eqb orb fst snd INR].
  f_equal. f_equal; [f_equal|]; lra.
Qed.

(** X1. One empty set is enough for the sentinel: on sets of points of the
    plane, when the reference set or the warped set has no point, the code
    raises nothing and returns the two sizes with [-1] for both metrics. *)
Theorem repeatability_one_set_empty (A B : ndarray) (distance_thresh : R) :
  ncols A = 2%nat ->
  ncols B = 2%nat ->
  rows A = [] \/ rows B = [] ->
  repeatability_core A B distance_thresh = Some (nrows A, nrows B, -1, -1).
Proof.
  intros HA HB Hempty. rewrite repeatability_core_spec by assumption.
  unfold repeatability_spec.
  assert (Hc : (count_correct (rows A) (rows B) distance_thresh
                + count_correct (rows B) (rows A) distance_thresh = 0)%nat).
  { destruct Hempty as [E|E]; rewrite E.
    - destruct (count_correct_empty (rows B) distance_thresh) as [-> _].
      reflexivity.
    - destruct (count_correct_empty (rows A) distance_thresh) as [-> _].
      reflexivity. }
  rewrite Hc. cbn [Nat.eqb]. rewrite orb_true_r. reflexivity.
Qed.

Lemma repeatability_one_set_empty_witness :
  repeatability_core (mk_ndarray 2 [[1; 2]; [3; 4]]) (mk_ndarray 2 []) 3
  = Some (2%nat, 0%nat, -1, -1).
Proof.
  apply (repeatability_one_set_empty (mk_ndarray 2 [[1; 2]; [3; 4]])
           (mk_ndarray 2 []) 3);
    [reflexivity | reflexivity | right; reflexivity].
Defined.

(** X2. Two sets with the same points, in any order and any number of
    copies, have repeatability 1 and localization error 0 under every
    threshold that is not negative. *)
Theorem repeatability_same_points (A B : ndarray) (distance_thresh : R) :
  ncols A = 2%nat ->
  ncols B = 2%nat ->
  rows A <> [] ->
  0 <= distance_thresh ->
  (forall p, In p (rows A) <-> In p (rows B)) ->
  repeatability_core A B distance_thresh = Some (nrows A, nrows B, 1, 0).
Proof.
  intros HA HB Hne Ht Hsame. rewrite repeatability_core_spec by assumption.
  unfold repeatability_spec, nrows.
  destruct (matches_of_members (rows A) (rows B) distance_thresh Ht
              (fun p => proj1 (Hsame p))) as [-> ->].
  destruct (matches_of_members (rows B) (rows A) distance_thresh Ht
              (fun p => proj2 (Hsame p))) as [-> ->].
  assert (Hlen : (0 < length (rows A))%nat)
    by (destruct (rows A); [contradiction | cbn; lia]).
  destruct (Nat.eqb_spec (length (rows A) + length (rows B)) 0); [lia|].
  cbn [orb fst snd]. f_equal. f_equal; [f_equal|].
  - apply Rinv_r. apply not_0_INR. lia.
  - unfold Rdiv. lra.
Qed.

Lemma repeatability_same_points_witness :
  repeatability_core (mk_ndarray 2 [[1; 2]; [3; 4]])
                     (mk_ndarray 2 [[3; 4]; [1; 2]; [3; 4]]) 0
  = Some (2%nat, 3%nat, 1, 0).
Proof.
  apply (repeatability_same_points (mk_ndarray 2 [[1; 2]; [3; 4]])
           (mk_ndarray 2 [[3; 4]; [1; 2]; [3; 4]]) 0).
  - reflexivity.
  - reflexivity.
  - discriminate.
  - lra.
  - intros p. cbn. tauto.
Defined.

(** X3. Exchanging the two sets exchanges the two sizes and changes neither
    metric. *)
Theorem repeatability_swap (A B : ndarray) (distance_thresh : R)
    (N1 N2 : nat) (repeatability loc_err : R) :
  ncols A = 2%nat ->
  ncols B = 2%nat ->
  repeatability_core A B distance_thresh = Some (N1, N2, repeatability, loc_err) ->
  repeatability_core B A distance_thresh = Some (N2, N1, repeatability, loc_err).
Proof.
  intros HA HB E. rewrite repeatability_core_spec in E by assumption.
  rewrite repeatability_core_spec by assumption.
  injection E as <- <- <- <-. f_equal.
  unfold repeatability_spec.
  rewrite (Nat.add_comm (length (rows B)) (length (rows A))).
  rewrite (Nat.add_comm (count_correct (rows B) (rows A) distance_thresh)).
  rewrite (Rplus_comm (loc_err_sum (rows B) (rows A) distance_thresh)).
  reflexivity.
Qed.

Lemma repeatability_swap_witness :
  repeatability_core (mk_ndarray 2 [[0; 0]; [10; 11]])
                     (mk_ndarray 2 [[10; 10]; [0; 0]]) 3
  = Some (2%nat, 2%nat, 1, 1 / 2).
Proof.
  apply (repeatability_swap (mk_ndarray 2 [[10; 10]; [0; 0]])
           (mk_ndarray 2 [[0; 0]; [10; 11]]) 3 2 2 1 (1 / 2));
    [reflexivity | reflexivity | exact scenario_core].
Defined.

(** ** The threshold *)

Lemma is_correct_mono (p : list R) (B : list (list R)) (t t' : R) :
  t <= t' -> is_correct p B t = true -> is_correct p B t' = true.
Proof.
  unfold is_correct. destruct (min_dist p B); [|discriminate].
  rewrite !Rleb_true. lra.
Qed.

(** A larger threshold keeps every match. *)
Lemma count_correct_mono (A B : list (list R)) (t t' : R) :
  t <= t' -> (count_correct A B t <= count_correct A B t')%nat.
Proof.
  intros Ht. unfold count_correct.
  induction A as [|p A IH]; [cbn; lia|]. cbn [filter].
  destruct (is_correct p B t) eqn:E.
  - rewrite (is_correct_mono _ _ _ _ Ht E). cbn [length]. lia.
  - destruct (is_correct p B t'); cbn [length]; lia.
Qed.

(** X5. The repeatability grows with the threshold: on the same two sets a
    larger [distance_thresh] gives the same sizes and a repeatability that
    is not smaller, the sentinel [-1] being the smallest value. *)
Theorem repeatability_grows_with_thresh (A B : ndarray) (t t' : R)
    (N1 N2 N1' N2' : nat) (rep le rep' le' : R) :
  ncols A = 2%nat ->
  ncols B = 2%nat ->
  t <= t' ->
  repeatability_core A B t = Some (N1, N2, rep, le) ->
  repeatability_core A B t' = Some (N1', N2', rep', le') ->
  N1' = N1 /\ N2' = N2 /\ rep <= rep'.
Proof.
  intros HA HB Ht E E'.
  rewrite repeatability_core_spec in E, E' by assumption.
  injection E as <- <- <- <-. injection E' as <- <- <- <-.
  split; [reflexivity|]. split; [reflexivity|].
  unfold repeatability_spec.
  pose proof (count_correct_mono (rows A) (rows B) t t' Ht) as G1.
  pose proof (count_correct_mono (rows B) (rows A) t t' Ht) as G2.
  pose proof (count_correct_le (rows A) (rows B) t') as L1.
  pose proof (count_correct_le (rows B) (rows A) t') as L2.
  set (c1 := count_correct (rows A) (rows B) t) in *.
  set (c2 := count_correct (rows B) (rows A) t) in *.
  set (c1' := count_correct (rows A) (rows B) t') in *.
  set (c2' := count_correct (rows B) (rows A) t') in *.
  set (n := (length (rows A) + length (rows B))%nat) in *.
  destruct (Nat.eqb_spec n 0) as [Hn|Hn]; [cbn [orb fst]; lra|].
  destruct (Nat.eqb_spec (c1 + c2) 0) as [Hc|Hc];
    destruct (Nat.eqb_spec (c1' + c2') 0) as [Hc'|Hc']; cbn [orb fst];
    try lia.
  - lra.
  - assert (Hq : 0 < INR (c1' + c2') / INR n <= 1)
      by (apply quotient_range; lia).
    lra.
  - assert (Hn' : 0 < INR n) by (apply lt_0_INR; lia).
    assert (Hcc : INR (c1 + c2) <= INR (c1' + c2')) by (apply le_INR; lia).
    unfold Rdiv. apply Rmult_le_compat_r; [|exact Hcc].
    left. now apply Rinv_0_lt_compat.
Qed.

(** The scenario under the threshold 1/2: only the points at distance 0
    match. *)
Lemma scenario_core_half :
  repeatability_core (mk_ndarray 2 [[10; 10]; [0; 0]])
                     (mk_ndarray 2 [[0; 0]; [10; 11]]) (1 / 2)
  = Some (2%nat, 2%nat, 1 / 2, 0).
Proof.
  assert (E1 : euclid [10; 10] [10; 11] = 1)
    by (apply euclid_value; cbn; lra).
  assert (E2 : 1 <= euclid [10; 10] [0; 0])
    by (apply euclid_at_least; cbn; lra).
  assert (E3 : euclid [0; 0] [0; 0] = 0) by apply euclid_refl.
  assert (E4 : 1 <= euclid [0; 0] [10; 11])
    by (apply euclid_at_least; cbn; lra).
  assert (N1 : min_dist [10; 10] [[0; 0]; [10; 11]] = Some 1).
  { cbn [min_dist]. rewrite E1. now rewrite Rmin_right. }
  assert (N2 : min_dist [0; 0] [[0; 0]; [10; 11]] = Some 0).
  { cbn [min_dist]. rewrite E3. rewrite Rmin_left; [reflexivity | lra]. }
  assert (N3 : min_dist [0; 0] [[10; 10]; [0; 0]] = Some 0).
  { cbn [min_dist]. rewrite E3, (euclid_sym [0; 0] [10; 10]).
    rewrite Rmin_right; [reflexivity | lra]. }
  assert (N4 : min_dist [10; 11] [[10; 10]; [0; 0]] = Some 1).
  { cbn [min_dist]. rewrite (euclid_sym [10; 11] [10; 10]), E1.
    rewrite (euclid_sym [10; 11] [0; 0]). now rewrite Rmin_left. }
  rewrite repeatability_core_spec by reflexivity.
  unfold repeatability_spec, count_correct, loc_err_sum, is_correct, nearest.
  cbn [rows nrows filter]. rewrite N1, N2, N3, N4. unfold Rleb. rcmp.
  cbn [filter map length rsum fold_right Nat.add Nat.eqb orb fst snd].
  rewrite N2, N3. cbn [INR]. f_equal. f_equal; [f_equal|]; lra.
Qed.

Lemma repeatability_grows_with_thresh_witness :
  2%nat = 2%nat /\ 2%nat = 2%nat /\ 1 / 2 <= 1.
Proof.
  apply (repeatability_grows_with_thresh (mk_ndarray 2 [[10; 10]; [0; 0]])
           (mk_ndarray 2 [[0; 0]; [10; 11]]) (1 / 2) 3
           2 2 2 2 (1 / 2) 0 1 (1 / 2));
    [reflexivity | reflexivity | lra | exact scenario_core_half
     | exact scenario_core].
Defined.

(** ** What the selection keeps *)

Lemma StronglySorted_app_cross {A : Type} (P : A -> A -> Prop) (l1 l2 : list A) :
  StronglySorted P (l1 ++ l2) ->
  forall x y, In x l1 -> In y l2 -> P x y.
Proof.
  induction l1 as [|a l1 IH]; intros Hs x y Hx Hy; [contradiction|].
  cbn in Hs. apply StronglySorted_inv in Hs. destruct Hs as [Hs Ha].
  destruct Hx as [<-|Hx].
  - rewrite Forall_forall in Ha. apply Ha, in_or_app. now right.
  - now apply IH.
Qed.

(** X6. For [k >= 1] the selection keeps the most probable points: the rows
    of [S] split into the rows dropped and the [min(k, N)] rows kept, no
    row dropped has a larger confidence than a row kept, and the result is
    the coordinates of the rows kept. *)
Theorem select_k_best_most_probable {AS : ArgSort} {Hok : ArgSortOk AS}
    (S : ndarray) (k : Z) :
  (3 <= ncols S)%nat ->
  (1 <= k)%Z ->
  exists dropped kept,
    Permutation (dropped ++ kept) (rows S)
    /\ select_k_best S k = Some (mk_ndarray 2 (map (firstn 2) kept))
    /\ length kept = Nat.min (Z.to_nat k) (nrows S)
    /\ (forall d r, In d dropped -> In r kept -> confidence d <= confidence r).
Proof.
  intros Hc Hk.
  set (m := Nat.min (Z.to_nat k) (nrows S)).
  exists (firstn (length (ordered_rows S) - m) (ordered_rows S)),
         (lastn m (ordered_rows S)).
  split; [|split; [|split]].
  - unfold lastn. rewrite firstn_skipn. apply ordered_rows_perm.
  - rewrite select_k_best_eq by assumption.
    rewrite <- (ordered_rows_length S) at 1.
    rewrite <- (length_map (firstn 2) (ordered_rows S)).
    rewrite slice_from_top by assumption.
    rewrite lastn_map, length_map, ordered_rows_length. reflexivity.
  - unfold lastn. rewrite length_skipn, ordered_rows_length. subst m. lia.
  - apply StronglySorted_app_cross. unfold lastn. rewrite firstn_skipn.
    apply ordered_rows_sorted.
Qed.

Lemma select_k_best_most_probable_witness :
  exists dropped kept,
    Permutation (dropped ++ kept) [[0; 0; 0.9]; [10; 10; 0.5]; [5; 5; 0.7]]
    /\ @select_k_best insertion_argsort
         (mk_ndarray 3 [[0; 0; 0.9]; [10; 10; 0.5]; [5; 5; 0.7]]) 2
       = Some (mk_ndarray 2 (map (firstn 2) kept))
    /\ length kept = 2%nat
    /\ (forall d r, In d dropped -> In r kept -> confidence d <= confidence r).
Proof.
  apply (@select_k_best_most_probable insertion_argsort insertion_argsort_ok
           (mk_ndarray 3 [[0; 0; 0.9]; [10; 10; 0.5]; [5; 5; 0.7]]) 2);
    [cbn; lia | lia].
Defined.

Lemma skipn_clamped {A : Type} (l : list A) (a : Z) :
  (0 <= a)%Z ->
  skipn (Z.to_nat (Z.min a (Z.of_nat (length l)))) l = skipn (Z.to_nat a) l.
Proof.
  intros Ha. destruct (Z.le_gt_cases a (Z.of_nat (length l))).
  - now rewrite Z.min_l.
  - rewrite Z.min_r by lia. rewrite Nat2Z.id, skipn_all.
    symmetry. apply skipn_all2. lia.
Qed.

(** X7. A negative [k] does not select: [select_k_best(S, k)] then drops the
    [-k] least probable rows and returns the coordinates of all the
    others, none when [S] has at most [-k] rows. *)
Theorem select_k_best_negative {AS : ArgSort} {Hok : ArgSortOk AS}
    (S : ndarray) (k : Z) :
  (3 <= ncols S)%nat ->
  (k < 0)%Z ->
  select_k_best S k
  = Some (mk_ndarray 2
            (map (firstn 2) (skipn (Z.to_nat (- k)) (ordered_rows S))))
  /\ length (skipn (Z.to_nat (- k)) (ordered_rows S))
     = (nrows S - Z.to_nat (- k))%nat.
Proof.
  intros Hc Hk. split.
  - rewrite select_k_best_eq by assumption.
    rewrite Z.min_l by lia. rewrite slice_from_map. unfold slice_from.
    destruct (Z.ltb_spec (- k) 0); [lia|].
    now rewrite skipn_clamped by lia.
  - now rewrite length_skipn, ordered_rows_length.
Qed.

Lemma select_k_best_negative_witness :
  @select_k_best insertion_argsort
    (mk_ndarray 3 [[0; 0; 0.9]; [10; 10; 0.5]; [5; 5; 0.7]]) (-1)
  = Some (mk_ndarray 2 [[5; 5]; [0; 0]]).
Proof.
  destruct (@select_k_best_negative insertion_argsort insertion_argsort_ok
              (mk_ndarray 3 [[0; 0; 0.9]; [10; 10; 0.5]; [5; 5; 0.7]]) (-1))
    as [H _]; [cbn; lia | lia |].
  rewrite H. unfold ordered_rows, argsort, insertion_argsort.
  rcompute. reflexivity.
Defined.

(** X8. [select_k_best] raises exactly on an array of fewer than three
    columns, which has no confidence to sort on: also on an empty one, and
    on its own results. *)
Theorem select_k_best_raises {AS : ArgSort} {Hok : ArgSortOk AS}
    (S : ndarray) (k : Z) :
  select_k_best S k = None <-> (ncols S < 3)%nat.
Proof.
  split.
  - intros E. destruct (Nat.lt_ge_cases (ncols S) 3) as [H|H]; [exact H|].
    rewrite select_k_best_eq in E by assumption. discriminate.
  - intros H. unfold select_k_best, col.
    destruct (Nat.ltb_spec 2 (ncols S)); [lia | reflexivity].
Qed.

Lemma select_k_best_raises_witness :
  @select_k_best insertion_argsort (mk_ndarray 2 []) 5 = None.
Proof.
  apply (proj2 (@select_k_best_raises insertion_argsort insertion_argsort_ok
                  (mk_ndarray 2 []) 5)).
  cbn. lia.
Defined.

(** ** The bounds filters at the edges *)

Lemma bounds_mask_raises (a : ndarray) (shape : Z * Z) :
  (ncols a < 2)%nat -> bounds_mask a shape = None.
Proof.
  intros Hc. unfold bounds_mask, col.
  destruct (Nat.ltb_spec 0 (ncols a)); [|reflexivity]. cbn [bind].
  destruct (Nat.ltb_spec 1 (ncols a)); [lia | reflexivity].
Qed.

Lemma filter_keypoints_inv (P Q : ndarray) (shape : Z * Z) :
  filter_keypoints P shape = Some Q ->
  (2 <= ncols P)%nat
  /\ Q = mk_ndarray (ncols P) (filter (fun r => in_boundsb r shape) (rows P)).
Proof.
  intros E. destruct (Nat.lt_ge_cases (ncols P) 2) as [H|H].
  - unfold filter_keypoints in E. rewrite bounds_mask_raises in E by assumption.
    discriminate.
  - split; [exact H|]. unfold filter_keypoints in E.
    rewrite bounds_mask_spec in E by assumption. cbn [bind] in E.
    unfold bool_index, nrows in E. rewrite length_map, Nat.eqb_refl in E.
    rewrite select_map_filter in E. now injection E as <-.
Qed.

Lemma filter_idem {A : Type} (f : A -> bool) (l : list A) :
  filter f (filter f l) = filter f l.
Proof.
  induction l as [|x l IH]; [reflexivity|]. cbn.
  destruct (f x) eqn:E; [|exact IH]. cbn. now rewrite E, IH.
Qed.

(** X9. Filtering again changes nothing: what [filter_keypoints] returns has
    the columns of its input, no more rows, every row in bounds, and is
    returned as it is by a second call. *)
Theorem filter_keypoints_idempotent (P Q : ndarray) (shape : Z * Z) :
  filter_keypoints P shape = Some Q ->
  filter_keypoints Q shape = Some Q
  /\ ncols Q = ncols P
  /\ (nrows Q <= nrows P)%nat
  /\ Forall (fun r => in_bounds r shape) (rows Q).
Proof.
  intros E. destruct (filter_keypoints_inv P Q shape E) as [Hc ->].
  split; [|split; [reflexivity|split]].
  - unfold filter_keypoints. rewrite bounds_mask_spec by exact Hc.
    cbn [bind rows]. unfold bool_index, nrows. cbn [rows ncols].
    rewrite length_map, Nat.eqb_refl, select_map_filter, filter_idem.
    reflexivity.
  - unfold nrows. cbn [rows]. apply filter_length_le.
  - cbn [rows]. apply Forall_forall. intros r Hr. apply filter_In in Hr.
    now apply in_boundsb_spec.
Qed.

Lemma filter_keypoints_idempotent_witness :
  filter_keypoints (mk_ndarray 2 [[1; 1]]) (4, 3)%Z
  = Some (mk_ndarray 2 [[1; 1]]).
Proof.
  apply (filter_keypoints_idempotent (mk_ndarray 2 [[1; 1]; [4; 0]])
           (mk_ndarray 2 [[1; 1]]) (4, 3)%Z).
  unfold filter_keypoints, bounds_mask, col, bool_index.
  rcompute. reflexivity.
Defined.

(** X10. [keep_true_keypoints] raises exactly when the companion has fewer
    than two columns or not as many rows as the points. *)
Theorem keep_true_keypoints_raises (points ckw : ndarray) (shape : Z * Z) :
  keep_true_keypoints points ckw shape = None
  <-> (ncols ckw < 2)%nat \/ nrows points <> nrows ckw.
Proof.
  unfold keep_true_keypoints. split.
  - intros E. destruct (Nat.lt_ge_cases (ncols ckw) 2) as [H|H]; [now left|].
    right. rewrite bounds_mask_spec in E by assumption. cbn [bind] in E.
    unfold bool_index in E. rewrite length_map in E. fold (nrows ckw) in E.
    destruct (Nat.eqb_spec (nrows ckw) (nrows points)); [discriminate | auto].
  - intros [H|H].
    + now rewrite bounds_mask_raises.
    + destruct (Nat.lt_ge_cases (ncols ckw) 2) as [Hc|Hc];
        [now rewrite bounds_mask_raises|].
      rewrite bounds_mask_spec by assumption. cbn [bind]. unfold bool_index.
      rewrite length_map. fold (nrows ckw).
      destruct (Nat.eqb_spec (nrows ckw) (nrows points)); [congruence | reflexivity].
Qed.

(** ** The whole computation at the edges *)

Lemma project_raises (cfg : sonar_config) (f a : list R) (H : list (list R))
    (scored : ndarray) :
  (ncols scored < 3)%nat -> project cfg f a H scored = None.
Proof.
  intros Hc. unfold project.
  assert (E : col 2 scored = None).
  { unfold col. destruct (Nat.ltb_spec 2 (ncols scored)); [lia | reflexivity]. }
  destruct (normalize_keypoints _ _ _); [|reflexivity]. cbn [bind].
  destruct (pol_2_cart _ _); [|reflexivity]. cbn [bind].
  destruct (warp_keypoints _ _); [|reflexivity]. cbn [bind].
  destruct (col 0 _); [|reflexivity]. cbn [bind].
  destruct (col 1 _); [|reflexivity]. cbn [bind].
  now rewrite E.
Qed.

Lemma project_nrows (cfg : sonar_config) (f a : list R) (H : list (list R))
    (scored P : ndarray) :
  length f = 2%nat -> length a = 2%nat ->
  project cfg f a H scored = Some P ->
  ncols P = 3%nat /\ nrows P = nrows scored.
Proof.
  intros Hf Ha E. destruct (Nat.lt_ge_cases (ncols scored) 3) as [Hc|Hc].
  - rewrite project_raises in E by assumption. discriminate.
  - destruct (project_shape cfg f a H scored Hf Ha Hc) as [P' [E' HP]].
    rewrite E in E'. now injection E' as <-.
Qed.

(** X12. [compute_repeatability_sonar] needs the confidences: when [prob] or
    [warped_prob] has fewer than three columns it raises, whatever the
    homography and the sonar configuration are, and returns no sentinel. *)
Theorem compute_repeatability_sonar_needs_confidence
    {AS : ArgSort} {Hok : ArgSortOk AS}
    (data : sample) (keep_k_points : Z) (distance_thresh : R) :
  (ncols (prob data) < 3)%nat \/ (ncols (warped_prob data) < 3)%nat ->
  compute_repeatability_sonar data keep_k_points distance_thresh = None.
Proof.
  intros Hbad. unfold compute_repeatability_sonar.
  destruct (Nat.lt_ge_cases (ncols (warped_prob data)) 3) as [Hw|Hw];
    [now rewrite project_raises|].
  destruct (project _ _ _ _ (warped_prob data)); [|reflexivity]. cbn [bind].
  destruct (keep_true_keypoints _ _ _); [|reflexivity]. cbn [bind].
  destruct Hbad as [Hp|Hw']; [|lia].
  destruct (linalg_inv _); [|reflexivity]. cbn [bind].
  now rewrite project_raises.
Qed.

Lemma compute_repeatability_sonar_needs_confidence_witness :
  @compute_repeatability_sonar insertion_argsort
    (mk_sample (4, 4)%Z [[1; 0; 0]; [0; 1; 0]; [0; 0; 1]]
       (mk_ndarray 2 [[3; 3]]) (mk_ndarray 3 [[3; 3; 0.8]])
       (mk_sonar_config 90 1 5))
    300 3
  = None.
Proof.
  apply (@compute_repeatability_sonar_needs_confidence insertion_argsort
           insertion_argsort_ok _ 300 3).
  left. cbn. lia.
Defined.

Lemma select_length_le {A : Type} (mask : list bool) (l : list A) :
  (length (select mask l) <= length l)%nat.
Proof.
  revert l. induction mask as [|b m IH]; intros [|x l]; cbn; try lia.
  specialize (IH l). destruct b; cbn; lia.
Qed.

Lemma keep_true_keypoints_nrows (points ckw kept : ndarray) (shape : Z * Z) :
  keep_true_keypoints points ckw shape = Some kept ->
  (nrows kept <= nrows points)%nat.
Proof.
  unfold keep_true_keypoints. destruct (bounds_mask ckw shape); [|discriminate].
  cbn [bind]. unfold bool_index. destruct (_ =? _)%nat; [|discriminate].
  intros E. injection E as <-. apply select_length_le.
Qed.

Lemma slice_from_length {A : Type} (i : Z) (l : list A) :
  (length (slice_from i l) <= length l)%nat.
Proof. unfold slice_from. rewrite length_skipn. lia. Qed.

Lemma select_k_best_nrows {AS : ArgSort} {Hok : ArgSortOk AS}
    (S U : ndarray) (k : Z) :
  select_k_best S k = Some U ->
  (nrows U <= nrows S)%nat /\ ((1 <= k)%Z -> (Z.of_nat (nrows U) <= k)%Z).
Proof.
  intros E. destruct (Nat.lt_ge_cases (ncols S) 3) as [Hc|Hc].
  { unfold select_k_best, col in E.
    destruct (Nat.ltb_spec 2 (ncols S)); [lia | discriminate]. }
  rewrite select_k_best_eq in E by assumption.
  assert (Hlen : length (map (firstn 2) (ordered_rows S)) = nrows S)
    by (rewrite length_map; apply ordered_rows_length).
  remember (map (firstn 2) (ordered_rows S)) as l eqn:El. clear El.
  assert (EU : U = mk_ndarray 2 (slice_from (- Z.min k (Z.of_nat (nrows S))) l))
    by congruence.
  subst U. unfold nrows in *. cbn [rows]. rewrite <- Hlen. split.
  - apply slice_from_length.
  - intros Hk. rewrite slice_from_top by assumption.
    rewrite lastn_length by lia. lia.
Qed.

(** X13. The sizes [N1] and [N2] that [compute_repeatability_sonar] returns
    never exceed the number of keypoints detected in the first and in the
    second image, nor [keep_k_points] when it is at least 1. *)
Theorem compute_repeatability_sonar_sizes {AS : ArgSort} {Hok : ArgSortOk AS}
    (data : sample) (keep_k_points : Z) (distance_thresh : R)
    (N1 N2 : nat) (repeatability loc_err : R) :
  compute_repeatability_sonar data keep_k_points distance_thresh
  = Some (N1, N2, repeatability, loc_err) ->
  (N1 <= nrows (prob data))%nat
  /\ (N2 <= nrows (warped_prob data))%nat
  /\ ((1 <= keep_k_points)%Z ->
      (Z.of_nat N1 <= keep_k_points)%Z /\ (Z.of_nat N2 <= keep_k_points)%Z).
Proof.
  unfold compute_repeatability_sonar. intros E.
  repeat match type of E with
         | bind ?m _ = Some _ =>
             let x := fresh "x" in
             let Ex := fresh "Ex" in
             destruct m as [x|] eqn:Ex; [cbn [bind] in E | discriminate E]
         end.
  rewrite (repeatability_core_spec x5 x4 distance_thresh
             (select_k_best_ncols _ _ _ Ex5) (select_k_best_ncols _ _ _ Ex4))
    in E.
  assert (HN1 : N1 = nrows x5) by congruence.
  assert (HN2 : N2 = nrows x4) by congruence.
  destruct (select_k_best_nrows _ _ _ Ex4) as [W1 W2].
  destruct (select_k_best_nrows _ _ _ Ex5) as [T1 T2].
  pose proof (keep_true_keypoints_nrows _ _ _ _ Ex0) as W3.
  assert (T3 : (nrows x3 <= nrows x2)%nat)
    by (apply (keep_true_keypoints_nrows x2 x2 x3 (image_shape data)); exact Ex3).
  assert (T4 : ncols x2 = 3%nat /\ nrows x2 = nrows (prob data))
    by (eapply project_nrows; [| | exact Ex2]; reflexivity).
  destruct T4 as [_ T4].
  subst N1 N2.
  split; [lia|]. split; [lia|]. intros Hk. split; auto.
Qed.

Lemma compute_repeatability_sonar_sizes_witness :
  (1 <= 1)%nat /\ (1 <= 1)%nat
  /\ ((1 <= 300)%Z -> (Z.of_nat 1 <= 300)%Z /\ (Z.of_nat 1 <= 300)%Z).
Proof.
  exact (@compute_repeatability_sonar_sizes insertion_argsort
           insertion_argsort_ok _ 300 3 1%nat 1%nat 1 0 end_to_end_example).
Defined.

(** ** The filter on the confidence threshold *)

Lemma select_combine {A B : Type} (f : A -> bool) :
  forall (l1 : list A) (l2 : list B),
    length l2 = length l1 ->
    combine (select (map f l1) l1) (select (map f l1) l2)
    = filter (fun p => f (fst p)) (combine l1 l2).
Proof.
  induction l1 as [|x l1 IH]; intros [|y l2] Hlen; try discriminate;
    [reflexivity|].
  cbn [map select combine filter fst]. injection Hlen as Hlen.
  destruct (f x); cbn [combine]; now rewrite IH.
Qed.

Lemma select_map_length {A B : Type} (f : A -> bool) :
  forall (l1 : list A) (l2 : list B),
    length l2 = length l1 ->
    length (select (map f l1) l2) = length (select (map f l1) l1).
Proof.
  induction l1 as [|x l1 IH]; intros [|y l2] Hlen; try discriminate;
    [reflexivity|].
  cbn [map select]. injection Hlen as Hlen.
  destruct (f x); cbn [length]; now rewrite IH.
Qed.

(** X14. The filter on the confidence threshold keeps keypoints and
    descriptors paired: with one descriptor per keypoint it returns, and
    the pairs it keeps are, in order, the pairs whose confidence is
    strictly above the threshold; a confidence equal to the threshold is
    dropped. *)
Theorem conf_filter_paired (conf_threshold : R) (score desc : ndarray) :
  (3 <= ncols score)%nat ->
  nrows desc = nrows score ->
  exists score' desc',
    conf_filter conf_threshold score desc = Some (score', desc')
    /\ nrows desc' = nrows score'
    /\ combine (rows score') (rows desc')
       = filter (fun p => Rltb conf_threshold (confidence (fst p)))
                (combine (rows score) (rows desc))
    /\ (forall r, In r (rows score')
                  <-> In r (rows score) /\ conf_threshold < confidence r).
Proof.
  intros Hc Hn. unfold conf_filter, col.
  destruct (Nat.ltb_spec 2 (ncols score)); [|lia]. cbn [bind].
  unfold vec_gt. rewrite map_map. unfold bool_index.
  rewrite length_map. fold (nrows score). rewrite Hn, !Nat.eqb_refl.
  cbn [bind]. do 2 eexists. split; [reflexivity|].
  unfold nrows in *. cbn [rows].
  change (fun x : list R => Rltb conf_threshold (nth 2 x 0))
    with (fun x : list R => Rltb conf_threshold (confidence x)).
  split; [|split].
  - now apply select_map_length.
  - now apply (select_combine (fun x => Rltb conf_threshold (confidence x))).
  - intros r. rewrite select_map_filter, filter_In, Rltb_true. reflexivity.
Qed.

Lemma conf_filter_example :
  conf_filter 0.9 (mk_ndarray 3 [[1; 2; 0.95]; [3; 4; 0.9]; [5; 6; 1]])
                  (mk_ndarray 1 [[7]; [8]; [9]])
  = Some (mk_ndarray 3 [[1; 2; 0.95]; [5; 6; 1]], mk_ndarray 1 [[7]; [9]]).
Proof.
  unfold conf_filter, col, bool_index, vec_gt. rcompute. reflexivity.
Qed.

Lemma conf_filter_paired_witness :
  exists score' desc',
    conf_filter 0.9 (mk_ndarray 3 [[1; 2; 0.95]; [3; 4; 0.9]; [5; 6; 1]])
                    (mk_ndarray 1 [[7]; [8]; [9]])
    = Some (score', desc')
    /\ nrows desc' = nrows score'.
Proof.
  destruct (conf_filter_paired 0.9
              (mk_ndarray 3 [[1; 2; 0.95]; [3; 4; 0.9]; [5; 6; 1]])
              (mk_ndarray 1 [[7]; [8]; [9]]))
    as [s [d [H [Hn _]]]]; [cbn; lia | reflexivity |].
  exists s, d. split; [exact H | exact Hn].
Defined.

(** ** The means over a data set *)

Lemma fold_append_sonar (results : list (nat * nat * R * R))
    (acc : list R * list R) :
  fold_left append_sonar results acc
  = (fst acc ++ map result_rep results, snd acc ++ map result_loc_err results).
Proof.
  revert acc. induction results as [|[[[n1 n2] rep] le] results IH]; intros acc.
  - cbn. rewrite !app_nil_r. now destruct acc.
  - cbn [fold_left]. rewrite IH. cbn [append_sonar fst snd map].
    now rewrite <- !app_assoc.
Qed.

Lemma fold_append_valid (results : list (nat * nat * R * R))
    (acc : list R * list R) :
  fold_left append_valid results acc
  = (fst acc ++ map result_rep
               (filter (fun res => Rneqb (result_rep res) (-1)
                                   && Rneqb (result_loc_err res) (-1)) results),
     snd acc ++ map result_loc_err
               (filter (fun res => Rneqb (result_rep res) (-1)
                                   && Rneqb (result_loc_err res) (-1)) results)).
Proof.
  revert acc. induction results as [|[[[n1 n2] rep] le] results IH]; intros acc.
  - cbn. rewrite !app_nil_r. now destruct acc.
  - cbn [fold_left filter]. rewrite IH. unfold append_valid, result_rep,
      result_loc_err. cbn [fst snd].
    destruct (Rneqb rep (-1) && Rneqb le (-1)); cbn [fst snd map];
      [now rewrite <- !app_assoc | reflexivity].
Qed.

Lemma Rneqb_true (x y : R) : Rneqb x y = true <-> x <> y.
Proof.
  unfold Rneqb. destruct (Req_dec_T x y); split; intros; auto; try discriminate;
    try contradiction.
Qed.

Lemma rsum_between (l : list R) :
  (forall x, In x l -> x = -1 \/ 0 <= x <= 1) ->
  - INR (length l) <= rsum l <= INR (length l)
  /\ (rsum l = - INR (length l) -> forall x, In x l -> x = -1).
Proof.
  induction l as [|y l IH]; intros Hl.
  - cbn. split; [lra | intros _ x []].
  - destruct IH as [[Lo Hi] Hmin]; [intros; apply Hl; now right|].
    assert (Hy : -1 <= y <= 1) by (destruct (Hl y); [now left | lra | lra]).
    cbn [length]. rewrite S_INR. unfold rsum in *. cbn [fold_right].
    split; [lra|]. intros E x [<-|Hx]; [lra|]. apply Hmin; [lra | exact Hx].
Qed.

(** X15. In [evaluate_keypoint_net_sonar] every sample is averaged, the
    samples without a correspondence as [-1]: over results that are each
    the sentinel or a repeatability in [[0, 1]], the mean repeatability
    returned lies in [[-1, 1]], and it is [-1] exactly when no sample has a
    correspondence. *)
Theorem evaluate_sonar_mean (results : list (nat * nat * R * R)) :
  results <> [] ->
  (forall res, In res results ->
               result_rep res = -1 \/ 0 <= result_rep res <= 1) ->
  fst (collect_sonar results) = map result_rep results
  /\ snd (collect_sonar results) = map result_loc_err results
  /\ -1 <= np_mean (fst (collect_sonar results)) <= 1
  /\ (np_mean (fst (collect_sonar results)) = -1
      <-> forall res, In res results -> result_rep res = -1).
Proof.
  intros Hne Hrange. unfold collect_sonar. rewrite fold_append_sonar.
  cbn [fst snd app]. split; [reflexivity|]. split; [reflexivity|].
  assert (Hl : forall x, In x (map result_rep results) -> x = -1 \/ 0 <= x <= 1).
  { intros x Hx. apply in_map_iff in Hx. destruct Hx as [res [<- Hres]].
    now apply Hrange. }
  destruct (rsum_between _ Hl) as [[Lo Hi] Hmin].
  assert (Hn : 0 < INR (length (map result_rep results))).
  { apply lt_0_INR. rewrite length_map.
    destruct results; [contradiction | cbn; lia]. }
  unfold np_mean.
  set (n := INR (length (map result_rep results))) in *.
  set (s := rsum (map result_rep results)) in *.
  assert (Es : s = s / n * n) by (field; lra).
  split; [split|split].
  - apply Rmult_le_reg_r with n; [exact Hn|]. lra.
  - apply Rmult_le_reg_r with n; [exact Hn|]. lra.
  - intros E res Hres. apply Hmin; [|now apply in_map].
    rewrite E in Es. lra.
  - intros Hall.
    assert (E : s = - n).
    { subst s n. clear - Hall. induction results as [|r results IH];
        [cbn; lra|].
      cbn [map length rsum fold_right]. rewrite S_INR.
      rewrite (Hall r) by now left. unfold rsum in IH.
      rewrite IH; [lra|]. intros; apply Hall; now right. }
    rewrite E. field. lra.
Qed.

Lemma evaluate_sonar_mean_witness :
  -1 <= np_mean (fst (collect_sonar [(2%nat, 2%nat, 1, 1 / 2);
                                     (0%nat, 3%nat, -1, -1)])) <= 1.
Proof.
  destruct (evaluate_sonar_mean [(2%nat, 2%nat, 1, 1 / 2); (0%nat, 3%nat, -1, -1)])
    as [_ [_ [H _]]].
  - discriminate.
  - intros res [<-|[<-|[]]]; unfold result_rep; cbn; [right; lra | left; lra].
  - exact H.
Defined.

(** X16. In [evaluate_keypoint_net] no sentinel is averaged: the two lists
    hold, in order, the repeatability and the localization error of the
    samples where neither is [-1]; they have one length, neither contains
    [-1], and both are empty when every sample is degenerate. *)
Theorem collect_valid_invariants (results : list (nat * nat * R * R)) :
  let valid := fun res => Rneqb (result_rep res) (-1)
                          && Rneqb (result_loc_err res) (-1) in
  collect_valid results
  = (map result_rep (filter valid results),
     map result_loc_err (filter valid results))
  /\ length (fst (collect_valid results)) = length (snd (collect_valid results))
  /\ ~ In (-1) (fst (collect_valid results))
  /\ ~ In (-1) (snd (collect_valid results))
  /\ ((forall res, In res results -> result_rep res = -1) ->
      collect_valid results = ([], [])).
Proof.
  intros valid. unfold collect_valid. rewrite fold_append_valid.
  cbn [fst snd app]. fold valid.
  split; [reflexivity|]. split; [now rewrite !length_map|].
  split; [|split].
  - intros Hin. apply in_map_iff in Hin. destruct Hin as [res [E Hres]].
    apply filter_In in Hres. destruct Hres as [_ Hv]. unfold valid in Hv.
    apply andb_true_iff in Hv. destruct Hv as [Hv _].
    apply Rneqb_true in Hv. contradiction.
  - intros Hin. apply in_map_iff in Hin. destruct Hin as [res [E Hres]].
    apply filter_In in Hres. destruct Hres as [_ Hv]. unfold valid in Hv.
    apply andb_true_iff in Hv. destruct Hv as [_ Hv].
    apply Rneqb_true in Hv. contradiction.
  - intros Hall.
    assert (E : filter valid results = []).
    { induction results as [|r results IH]; [reflexivity|]. cbn [filter].
      assert (Hr : valid r = false).
      { unfold valid. rewrite (Hall r) by now left.
        unfold Rneqb. destruct (Req_dec_T (-1) (-1)); [reflexivity | contradiction]. }
      rewrite Hr. apply IH. intros; apply Hall; now right. }
    now rewrite E.
Qed.

(** ** The name of a checkpoint *)

Lemma split_on_nonempty (sep : Ascii.ascii) (s : list Ascii.ascii) :
  split_on sep s <> [].
Proof.
  destruct s as [|c rest]; cbn; [discriminate|].
  destruct (Ascii.eqb c sep); [discriminate|].
  destruct (split_on sep rest); discriminate.
Qed.

Lemma last_cons {A : Type} (x : A) (l : list A) (d : A) :
  l <> [] -> last (x :: l) d = last l d.
Proof. destruct l; [contradiction | reflexivity]. Qed.

Lemma split_on_single (sep : Ascii.ascii) (s : list Ascii.ascii) :
  ~ In sep s -> split_on sep s = [s].
Proof.
  induction s as [|c rest IH]; intros Hs; [reflexivity|]. cbn.
  destruct (Ascii.eqb_spec c sep) as [->|_]; [exfalso; apply Hs; now left|].
  rewrite IH; [reflexivity|]. intros H; apply Hs; now right.
Qed.

Lemma split_on_two (sep : Ascii.ascii) (dir name : list Ascii.ascii) :
  exists piece pieces,
    split_on sep (dir ++ sep :: name) = piece :: pieces /\ pieces <> [].
Proof.
  induction dir as [|c dir [piece [pieces [E Hne]]]]; cbn.
  - rewrite Ascii.eqb_refl. do 2 eexists. split; [reflexivity|].
    apply split_on_nonempty.
  - destruct (Ascii.eqb c sep).
    + do 2 eexists. split; [reflexivity | apply split_on_nonempty].
    + rewrite E. do 2 eexists. split; [reflexivity | exact Hne].
Qed.

Lemma last_split_on_app (sep : Ascii.ascii) (dir name : list Ascii.ascii) :
  last (split_on sep (dir ++ sep :: name)) [] = last (split_on sep name) [].
Proof.
  induction dir as [|c dir IH]; cbn [app split_on].
  - rewrite Ascii.eqb_refl. apply last_cons, split_on_nonempty.
  - destruct (Ascii.eqb c sep).
    + rewrite last_cons by apply split_on_nonempty. exact IH.
    + destruct (split_on_two sep dir name) as [piece [pieces [E Hne]]].
      rewrite E in *. rewrite last_cons by exact Hne.
      rewrite <- IH. symmetry. now apply last_cons.
Qed.

Lemma last_split_on_clean (sep : Ascii.ascii) (s : list Ascii.ascii) :
  ~ In sep (last (split_on sep s) []).
Proof.
  induction s as [|c rest IH]; cbn [split_on]; [intros []|].
  destruct (Ascii.eqb_spec c sep) as [->|Hc].
  - now rewrite last_cons by apply split_on_nonempty.
  - destruct (split_on sep rest) as [|piece pieces] eqn:E;
      [cbn; intros [H|[]]; congruence|].
    destruct pieces as [|p pieces].
    + cbn in *. intros [H|H]; [congruence | now apply IH].
    + exact IH.
Qed.

(** X17. The name under which the script stores the results of a checkpoint
    is what follows the last backslash of its path: it contains no
    backslash, a path [dir\name] gives [name], and a path without any
    backslash, one written with forward slashes say, is its own name. *)
Theorem model_name_after_last_backslash (dir name : list Ascii.ascii) :
  ~ In backslash name ->
  model_name (dir ++ backslash :: name) = name
  /\ model_name name = name
  /\ forall path, ~ In backslash (model_name path).
Proof.
  intros Hname. unfold model_name. split; [|split].
  - rewrite last_split_on_app. now rewrite split_on_single.
  - now rewrite split_on_single.
  - intros path. apply last_split_on_clean.
Qed.

Lemma model_name_after_last_backslash_witness :
  model_name (map Ascii.ascii_of_nat [68; 58; 92; 109; 92; 118; 52]%nat)
  = map Ascii.ascii_of_nat [118; 52]%nat.
Proof.
  apply (model_name_after_last_backslash
           (map Ascii.ascii_of_nat [68; 58; 92; 109]%nat)
           (map Ascii.ascii_of_nat [118; 52]%nat)).
  cbn. unfold backslash. intros [H|[H|[]]]; discriminate H.
Defined.
